(** * Chunked CSV ingestion into a relational table

    A shallow embedding of the two loaders of the repository,
    [ingest_data] (src/ingest_data.py) and [run] (src/zones_data.py),
    together with a model of the library calls they are made of:
    [pd.read_csv] (whole-file and chunked), [DataFrame.head],
    [DataFrame.to_sql] and [print].

    Modelling envelope.  A CSV source is taken after tokenisation: a header
    (the column names as the parser reports them) and the data records, each
    a list of field literals.  What a literal becomes under a declared dtype,
    under date parsing or under type inference is left to three functions the
    development is parametric in; only the fact that a declared dtype can
    reject a literal matters to the control flow.  What the reader does
    with its missing-value markers and with non-numeric text in a column of a
    declared dtype is fixed by [read_literal].  A record shorter than the
    header reads as padded with missing fields and a longer one makes its
    batch fail to tokenise; the parser's reading of a longer first record as
    carrying an unnamed index is outside the model.  The destination database
    is a finite map from table names to tables, with the history of the
    statements executed against it; its tables are untyped, so insert-time
    type errors are outside the model. *)

From Stdlib Require Import ZArith Ascii String List Bool Lia.
From stdpp Require Import gmap strings list fin_maps pretty.

Local Open Scope string_scope.

(** ** Constants of src/ingest_data.py *)

Inductive dtype := Int64 | float64 | string_dtype.

(** [DTYPE]: the explicit schema, a Python dict from column name to dtype. *)
Definition DTYPE : gmap string dtype :=
  list_to_map
    [ ("VendorID", Int64);
      ("passenger_count", Int64);
      ("trip_distance", float64);
      ("RatecodeID", Int64);
      ("store_and_fwd_flag", string_dtype);
      ("PULocationID", Int64);
      ("DOLocationID", Int64);
      ("payment_type", Int64);
      ("fare_amount", float64);
      ("extra", float64);
      ("mta_tax", float64);
      ("tip_amount", float64);
      ("tolls_amount", float64);
      ("improvement_surcharge", float64);
      ("total_amount", float64);
      ("congestion_surcharge", float64) ].

Definition PARSE_DATES : list string :=
  [ "tpep_pickup_datetime"; "tpep_dropoff_datetime" ].

(** The column types the claims call numeric. *)
Definition is_numeric (d : dtype) : bool :=
  match d with
  | Int64 | float64 => true
  | string_dtype => false
  end.

(** ** Exceptions and results *)

(** The exceptions the library calls raise on the paths the loaders take.
    [FuelExhausted] is not a Python exception: it is what the model's loop
    returns if its fuel runs out, which [ingest_data_fuel] shows never happens
    with the fuel [ingest_data] supplies. *)
Inductive exn :=
| ValueError_chunksize      (* 'chunksize' must be an integer >=1 *)
| URLError                  (* the source cannot be opened *)
| EmptyDataError            (* No columns to parse from file *)
| ValueError_parse_dates    (* Missing column provided to 'parse_dates' *)
| ParserError               (* a record has more fields than the header *)
| ValueError_dtype          (* a literal does not fit the declared dtype *)
| StopIteration             (* next() on an exhausted iterator *)
| OperationalError          (* the database cannot be reached *)
| ValueError_index_label    (* cannot insert level_0, already exists *)
| ProgrammingError          (* INSERT names a column the table lacks *)
| FuelExhausted.

Inductive result (A : Type) :=
| Ok (a : A)
| Raise (e : exn).
Arguments Ok {A} a.
Arguments Raise {A} e.

(** The error kinds of the specification (section 7) and the kind each
    exception falls under by what that section says the kind covers:
    a bad parameter; a CSV that is unreachable or malformed; a type coercion
    failure during read or table creation; an unreachable database; an
    insert-time failure. *)
Inductive error_class :=
| InvalidConfiguration
| SourceUnavailable
| SchemaMismatch
| ConnectionFailure
| ConstraintViolation.

Definition classify (e : exn) : option error_class :=
  match e with
  | ValueError_chunksize => Some InvalidConfiguration
  | URLError | EmptyDataError | ParserError => Some SourceUnavailable
  | ValueError_parse_dates | ValueError_dtype | ValueError_index_label =>
      Some SchemaMismatch
  | OperationalError => Some ConnectionFailure
  | ProgrammingError => Some ConstraintViolation
  | StopIteration | FuelExhausted => None
  end.

(** ** The CSV source *)

Record csv := { header : list string; records : list (list string) }.

Inductive IfExists := Replace | Append.

(** ** Splitting a list into pieces of at most [n] elements *)

Definition ceil_div (r c : nat) : nat := (r + c - 1) / c.

Definition chunks {A} (n : nat) (l : list A) : list (list A) :=
  (λ i, take n (drop (i * n) l)) <$> seq 0 (ceil_div (length l) n).

(** ** The data model, over the type [C] of the cells *)

(** A frame: its column names, its index and its rows. *)
Record DataFrame (C : Type) := {
  columns : list string;
  index : list nat;
  values : list (list C)
}.
Arguments Build_DataFrame {C} columns index values.
Arguments columns {C} d.
Arguments index {C} d.
Arguments values {C} d.

(** What a table holds: the index written by [to_sql], or a cell. *)
Inductive sqlval (C : Type) :=
| SqlInt (z : Z)
| SqlCell (c : C).
Arguments SqlInt {C} z.
Arguments SqlCell {C} c.

Record Table (C : Type) := {
  tcolumns : list string;
  trows : list (list (sqlval C))
}.
Arguments Build_Table {C} tcolumns trows.
Arguments tcolumns {C} t.
Arguments trows {C} t.

Inductive stmt (C : Type) :=
| DropTable (name : string)
| CreateTable (name : string) (cols : list string)
| Insert (name : string) (rows : list (list (sqlval C))).
Arguments DropTable {C} name.
Arguments CreateTable {C} name cols.
Arguments Insert {C} name rows.

(** The destination database (its tables, the statements executed against
    it, whether it can be reached) and the console. *)
Record World (C : Type) := {
  tables : gmap string (Table C);
  executed : list (stmt C);
  reachable : bool;
  stdout : list string
}.
Arguments Build_World {C} tables executed reachable stdout.
Arguments tables {C} w.
Arguments executed {C} w.
Arguments reachable {C} w.
Arguments stdout {C} w.

(** What a field becomes once read, and the three conversions of the
    reader: coercion to a declared dtype (which can reject the literal), date
    parsing and type inference (which cannot: a column that does not parse as
    dates, or has mixed content, is kept as text).  [urlopen] says what is
    behind a location: [None] when it cannot be opened. *)
Class Env := {
  cell : Type;
  to_dtype : dtype → string → option cell;
  to_datetime : string → cell;
  infer : string → cell;
  urlopen : string → option csv
}.

Section Loader.

Context `{!Env}.

(** ** Data frames *)

Definition len (df : DataFrame cell) : nat := length (values df).

Definition head (n : nat) (df : DataFrame cell) : DataFrame cell :=
  {| columns := columns df;
     index := take n (index df);
     values := take n (values df) |}.

(** ** The reader: [pd.read_csv] *)

Definition convert (dt : gmap string dtype) (dates : list string)
    (name field : string) : option cell :=
  match dt !! name with
  | Some d => to_dtype d field
  | None =>
      Some (if bool_decide (name ∈ dates) then to_datetime field
            else infer field)
  end.

(** A record shorter than the header is padded with missing fields. *)
Definition pad (n : nat) (fields : list string) : list string :=
  fields ++ replicate (n - length fields) "".

Definition convert_row (dt : gmap string dtype) (dates names : list string)
    (fields : list string) : option (list cell) :=
  mapM (λ nf, convert dt dates nf.1 nf.2)
       (zip names (pad (length names) fields)).

Definition too_long (names fields : list string) : bool :=
  (length names <? length fields)%nat.

(** The state of the parser object: [pending] holds the records not read
    yet, [currow] the number of records already handed out, [first_chunk]
    whether nothing has been read so far. *)
Record TextFileReader := {
  names : list string;
  dtype_arg : gmap string dtype;
  parse_dates : list string;
  chunksize : option nat;
  pending : list (list string);
  currow : nat;
  first_chunk : bool
}.

Definition advance (r : TextFileReader) (n new_rows : nat) : TextFileReader :=
  {| names := names r;
     dtype_arg := dtype_arg r;
     parse_dates := parse_dates r;
     chunksize := chunksize r;
     pending := drop n (pending r);
     currow := currow r + new_rows;
     first_chunk := false |}.

(** [TextFileReader.read(nrows)]: tokenise up to [nrows] records (all of
    them for [None]), then convert them column by column.  With nothing
    left the parser stops the iteration, except on the very first read,
    where it answers with an empty frame that has the header's columns.
    The frame's index is the range continuing at [currow]. *)
Definition read (nrows : option nat) (r : TextFileReader)
    : result (DataFrame cell * TextFileReader) :=
  let n := default (length (pending r)) nrows in
  let lines := take n (pending r) in
  match lines with
  | [] =>
      if first_chunk r
      then Ok ({| columns := names r; index := []; values := [] |},
               advance r n 0)
      else Raise StopIteration
  | _ :: _ =>
      if existsb (too_long (names r)) lines then Raise ParserError
      else
        match mapM (convert_row (dtype_arg r) (parse_dates r) (names r))
                   lines with
        | None => Raise ValueError_dtype
        | Some vals =>
            Ok ({| columns := names r;
                   index := seq (currow r) (length vals);
                   values := vals |},
                advance r n (length vals))
        end
  end.

(** [next(df_iter)]: read one chunk of the configured size. *)
Definition next (r : TextFileReader)
    : result (DataFrame cell * TextFileReader) :=
  read (chunksize r) r.

(** Opening the source and reading its header. *)
Definition TextFileReader_init (url : string) (dt : gmap string dtype)
    (dates : list string) (size : option nat) : result TextFileReader :=
  match urlopen url with
  | None => Raise URLError
  | Some f =>
      match header f with
      | [] => Raise EmptyDataError
      | _ :: _ =>
          if forallb (λ d, bool_decide (d ∈ header f)) dates
          then Ok {| names := header f;
                     dtype_arg := dt;
                     parse_dates := dates;
                     chunksize := size;
                     pending := records f;
                     currow := 0;
                     first_chunk := true |}
          else Raise ValueError_parse_dates
      end
  end.

(** [pd.read_csv(url, dtype=, parse_dates=, iterator=True, chunksize=)]:
    the chunk size is validated before the source is opened. *)
Definition read_csv_iterator (url : string) (dt : gmap string dtype)
    (dates : list string) (size : Z) : result TextFileReader :=
  if (size <? 1)%Z then Raise ValueError_chunksize
  else TextFileReader_init url dt dates (Some (Z.to_nat size)).

(** [pd.read_csv(url, dtype=, parse_dates=)]: the whole file as one frame.
    The zone loader calls it with neither argument, so that every column
    is inferred. *)
Definition read_csv (url : string) (dt : gmap string dtype)
    (dates : list string) : result (DataFrame cell) :=
  match TextFileReader_init url dt dates None with
  | Raise e => Raise e
  | Ok r =>
      match read None r with
      | Raise e => Raise e
      | Ok (df, _) => Ok df
      end
  end.

(** ** The destination database and the console *)

(** Computations that read and change the world and may raise. *)
Definition M (A : Type) : Type := World cell → result A * World cell.

#[local] Instance M_ret : MRet M := λ A a w, (Ok a, w).
#[local] Instance M_bind : MBind M := λ A B f m w,
  match m w with
  | (Ok a, w') => f a w'
  | (Raise e, w') => (Raise e, w')
  end.

Definition raise {A} (e : exn) : M A := λ w, (Raise e, w).

Definition lift {A} (r : result A) : M A := λ w, (r, w).

Definition print (line : string) : M unit := λ w,
  (Ok tt,
   {| tables := tables w;
      executed := executed w;
      reachable := reachable w;
      stdout := stdout w ++ [line] |}).

(** ** Writing a frame: [DataFrame.to_sql] *)

(** [index=True] is the default of [to_sql] and neither loader overrides
    it: the frame's index is written as a leading column, named [index],
    or [level_0] when the frame already has a column [index]. *)
Definition index_label (cols : list string) : string :=
  if bool_decide ("index" ∈ cols) then "level_0" else "index".

Definition sql_row (i : nat) (vs : list cell) : list (sqlval cell) :=
  SqlInt (Z.of_nat i) :: (SqlCell <$> vs).

Definition sql_rows (df : DataFrame cell) : list (list (sqlval cell)) :=
  zip_with sql_row (index df) (values df).

(** A frame without rows issues no INSERT. *)
Definition insert_stmt (name : string) (rows : list (list (sqlval cell)))
    : list (stmt cell) :=
  match rows with
  | [] => []
  | _ :: _ => [Insert name rows]
  end.

Definition run_stmts (w : World cell) (name : string) (t : Table cell)
    (ss : list (stmt cell)) : World cell :=
  {| tables := <[name := t]> (tables w);
     executed := executed w ++ ss;
     reachable := reachable w;
     stdout := stdout w |}.

Definition to_sql (df : DataFrame cell) (name : string) (if_exists : IfExists)
    : M unit := λ w,
  if negb (reachable w) then (Raise OperationalError, w)
  else
    let label := index_label (columns df) in
    if bool_decide (label ∈ columns df)
    then (Raise ValueError_index_label, w)
    else
      let cols := label :: columns df in
      let rows := sql_rows df in
      match tables w !! name, if_exists with
      | None, _ =>
          (Ok tt,
           run_stmts w name {| tcolumns := cols; trows := rows |}
             (CreateTable name cols :: insert_stmt name rows))
      | Some _, Replace =>
          (Ok tt,
           run_stmts w name {| tcolumns := cols; trows := rows |}
             (DropTable name :: CreateTable name cols
                :: insert_stmt name rows))
      | Some t, Append =>
          match rows with
          | [] => (Ok tt, w)
          | _ :: _ =>
              if bool_decide (tcolumns t = cols)
              then (Ok tt,
                    run_stmts w name
                      {| tcolumns := tcolumns t; trows := trows t ++ rows |}
                      [Insert name rows])
              else (Raise ProgrammingError, w)
          end
      end.

(** ** The loaders *)

(** [for df_chunk in df_iter: body(df_chunk)]. *)
Fixpoint for_each (fuel : nat) (it : TextFileReader)
    (body : DataFrame cell → M unit) : M unit :=
  match fuel with
  | 0 => raise FuelExhausted
  | S fuel' =>
      match next it with
      | Raise StopIteration => mret tt
      | Raise e => raise e
      | Ok (df_chunk, it') => body df_chunk;; for_each fuel' it' body
      end
  end.

(** src/ingest_data.py, [ingest_data].  The engine argument is the
    connection to the one database of the world. *)
Definition ingest_data (url : string) (target_table : string)
    (chunksize : Z) : M unit :=
  df_iter ← lift (read_csv_iterator url DTYPE PARSE_DATES chunksize);
  chunk ← lift (next df_iter);
  let first_chunk := chunk.1 in
  let df_iter := chunk.2 in
  to_sql (head 0 first_chunk) target_table Replace;;
  print ("Table '" +:+ target_table +:+ "' created");;
  to_sql first_chunk target_table Append;;
  print ("Inserted first chunk: " +:+ pretty (len first_chunk) +:+ " rows");;
  for_each (S (length (pending df_iter))) df_iter
    (λ df_chunk, to_sql df_chunk target_table Append);;
  print ("Done ingesting data into '" +:+ target_table +:+ "'").

Definition zones_url : string :=
  "https://d37ci6vzurychx.cloudfront.net/misc/taxi_zone_lookup.csv".

(** src/zones_data.py, [run].  [create_engine] does not connect. *)
Definition run (target_table : string) : M unit :=
  df_zones ← lift (read_csv zones_url ∅ []);
  to_sql (head 0 df_zones) target_table Replace;;
  print ("table " +:+ target_table +:+ " created");;
  to_sql df_zones target_table Append;;
  print (pretty (len df_zones) +:+ " rows inserted into " +:+ target_table).

(** ** What an iteration hands out *)

(** [reads it bs it']: reading the batches [bs] one after the other takes
    the iterator from state [it] to state [it']. *)
Inductive reads
    : TextFileReader → list (DataFrame cell) → TextFileReader → Prop :=
| reads_nil it : reads it [] it
| reads_cons it df it' bs it'' :
    next it = Ok (df, it') → reads it' bs it'' → reads it (df :: bs) it''.

(** The iteration is over at [it]. *)
Definition exhausted (it : TextFileReader) : Prop :=
  next it = Raise StopIteration.

(** The frames a chunked read of the converted records [vals] consists of:
    piece [i] carries the index range that starts at [start + i * n]. *)
Definition frames (cols : list string) (start n : nat)
    (vals : list (list cell)) : list (DataFrame cell) :=
  imap (λ i piece,
          {| columns := cols;
             index := seq (start + i * n) (length piece);
             values := piece |})
       (chunks n vals).

(** The batches a chunked read hands out for a source that reads, in one
    piece, as [df]: its pieces of [n] rows, or the one empty frame when the
    source has no records. *)
Definition batches_of (df : DataFrame cell) (n : nat) : list (DataFrame cell) :=
  match values df with
  | [] => [df]
  | _ :: _ => frames (columns df) 0 n (values df)
  end.

(** The statements a schema creation under [name] executes. *)
Definition create_stmts (w : World cell) (name : string) (cols : list string)
    : list (stmt cell) :=
  match tables w !! name with
  | Some _ => [DropTable name; CreateTable name cols]
  | None => [CreateTable name cols]
  end.

(** The INSERT statements that append the batches [bs] to [name]. *)
Definition insert_stmts (name : string) (bs : list (DataFrame cell))
    : list (stmt cell) :=
  bs ≫= (λ b, insert_stmt name (sql_rows b)).

(** The world after a load into [name]: the table stored under it, the
    statements executed and the lines printed on top of those of [w]. *)
Definition loaded (w : World cell) (name : string) (t : Table cell)
    (ss : list (stmt cell)) (lines : list string) : World cell :=
  {| tables := <[name := t]> (tables w);
     executed := executed w ++ ss;
     reachable := reachable w;
     stdout := stdout w ++ lines |}.

(** How a loop over the iterator ends when [next] finally raises [e]. *)
Definition outcome (e : exn) : result unit :=
  match e with
  | StopIteration => Ok tt
  | _ => Raise e
  end.

(** The lines [ingest_data] prints when its first chunk has [n] rows and
    its loop ends with [e], and the lines [run] prints for [n] rows. *)
Definition ingest_lines (target_table : string) (n : nat) (e : exn)
    : list string :=
  [ "Table '" +:+ target_table +:+ "' created";
    "Inserted first chunk: " +:+ pretty n +:+ " rows" ]
  ++ match e with
     | StopIteration =>
         [ "Done ingesting data into '" +:+ target_table +:+ "'" ]
     | _ => []
     end.

Definition run_lines (target_table : string) (n : nat) : list string :=
  [ "table " +:+ target_table +:+ " created";
    pretty n +:+ " rows inserted into " +:+ target_table ].

(** The two entry points side by side: the trip loader with its location
    and chunk size, and the zone loader. *)
Inductive loader :=
| Trips (url : string) (chunksize : Z)
| Zones.

Definition load (l : loader) (target_table : string) : M unit :=
  match l with
  | Trips url size => ingest_data url target_table size
  | Zones => run target_table
  end.

Definition location (l : loader) : string :=
  match l with
  | Trips url _ => url
  | Zones => zones_url
  end.

(** The chunk size handed to the reader is one it accepts. *)
Definition valid_chunksize (l : loader) : Prop :=
  match l with
  | Trips _ size => (1 ≤ size)%Z
  | Zones => True
  end.

(** The source of [l] reads, in one piece and with the arguments [l] gives
    the reader, as the frame [df]. *)
Definition reads_as (l : loader) (df : DataFrame cell) : Prop :=
  match l with
  | Trips url _ => read_csv url DTYPE PARSE_DATES = Ok df
  | Zones => read_csv zones_url ∅ [] = Ok df
  end.

Definition batches_written (l : loader) (df : DataFrame cell)
    : list (DataFrame cell) :=
  match l with
  | Trips _ size => batches_of df (Z.to_nat size)
  | Zones => [df]
  end.


End Loader.

(** ** The literals of a column with a declared dtype *)














(** ** The strings the entry points build *)

Fixpoint zeros (n : nat) : string :=
  match n with
  | 0 => ""
  | S n' => String "0" (zeros n')
  end.

(** Padding on the left with zeros up to [width] characters. *)
Definition zero_fill (width : nat) (digits : string) : string :=
  zeros (width - String.length digits) +:+ digits.

(** The format specification [0<width>d] of an f-string applied to an
    integer: its decimal digits, padded with zeros after the sign up to
    [width] characters. *)
Definition format_0d (width : nat) (z : Z) : string :=
  if (z <? 0)%Z then "-" +:+ zero_fill (width - 1) (pretty (Z.abs_N z))
  else zero_fill width (pretty (Z.to_N z)).

Definition url_prefix : string :=
  "https://github.com/DataTalksClub/nyc-tlc-data/releases/download/yellow".

(** [f"{url_prefix}/yellow_tripdata_{year:04d}-{month:02d}.csv.gz"]. *)
Definition dataset_url (year month : Z) : string :=
  url_prefix +:+ "/yellow_tripdata_" +:+ format_0d 4 year +:+ "-"
  +:+ format_0d 2 month +:+ ".csv.gz".

(** [f"postgresql://{pg_user}:{pg_pass}@{pg_host}:{pg_port}/{pg_db}"], the
    argument of [create_engine] in both scripts. *)
Definition engine_url (pg_user pg_pass pg_host : string) (pg_port : Z)
    (pg_db : string) : string :=
  "postgresql://" +:+ pg_user +:+ ":" +:+ pg_pass +:+ "@" +:+ pg_host +:+ ":"
  +:+ pretty pg_port +:+ "/" +:+ pg_db.

(** A digit string as [pretty] writes it: the single digit zero, or one
    that starts with another character than zero. *)
Definition canonical (s : string) : Prop :=
  s = "0"%string ∨ ∃ c r, s = String c r ∧ c ≠ "0"%char.

(** No character of [s] is [c]. *)
Fixpoint free_of (c : ascii) (s : string) : Prop :=
  match s with
  | EmptyString => True
  | String a s' => a ≠ c ∧ free_of c s'
  end.

(** ** A concrete environment to run the loaders in *)

Definition is_numeral_char (a : ascii) : bool :=
  let n := nat_of_ascii a in
  ((48 <=? n) && (n <=? 57))%nat
  || bool_decide (n = 45) || bool_decide (n = 46).

(** Cells keep the text of the literal.  A numeric dtype takes a literal
    made of digits, minus signs and points, the empty literal standing for a
    missing value; the string dtype takes every literal. *)
Definition literal_to_dtype (d : dtype) (s : string) : option string :=
  if is_numeric d
  then if forallb is_numeral_char (list_ascii_of_string s) then Some s else None
  else Some s.

Definition trip_header : list string :=
  [ "VendorID"; "tpep_pickup_datetime"; "tpep_dropoff_datetime";
    "fare_amount" ].

Definition trip (vendor fare : string) : list string :=
  [ vendor; "2021-01-01 00:30:10"; "2021-01-01 00:36:12"; fare ].

Definition trips_csv : csv :=
  {| header := trip_header;
     records := [trip "1" "8.0"; trip "2" "16.5"; trip "1" "4.2"] |}.

Definition header_only_csv : csv :=
  {| header := trip_header; records := [] |}.

(** The third record has text where the vendor number is expected. *)
Definition bad_csv : csv :=
  {| header := trip_header;
     records := [trip "1" "8.0"; trip "2" "16.5"; trip "abc" "4.2"] |}.

Definition no_columns_csv : csv := {| header := []; records := [] |}.

Definition zones_csv : csv :=
  {| header := ["LocationID"; "Borough"; "Zone"; "service_zone"];
     records := [ ["1"; "EWR"; "Newark Airport"; "EWR"];
                  ["2"; "Queens"; "Jamaica Bay"; "Boro Zone"] ] |}.

Definition example_urlopen (url : string) : option csv :=
  if bool_decide (url = "trips.csv") then Some trips_csv
  else if bool_decide (url = "header_only.csv") then Some header_only_csv
  else if bool_decide (url = "bad.csv") then Some bad_csv
  else if bool_decide (url = "no_columns.csv") then Some no_columns_csv
  else if bool_decide (url = zones_url) then Some zones_csv
  else None.

Definition example_env : Env :=
  {| cell := string;
     to_dtype := literal_to_dtype;
     to_datetime := id;
     infer := id;
     urlopen := example_urlopen |}.

(** The same conversions with no location reachable. *)
Definition offline_env : Env :=
  {| cell := string;
     to_dtype := literal_to_dtype;
     to_datetime := id;
     infer := id;
     urlopen := λ _, None |}.

(** A reachable database without tables, and one that already holds a table
    [t] from an earlier load of something else. *)
Definition fresh_world : World string :=
  {| tables := ∅; executed := []; reachable := true; stdout := [] |}.

Definition used_world : World string :=
  {| tables :=
       {[ "t" := {| tcolumns := ["index"; "old"];
                    trows := [[SqlInt 0; SqlCell "x"];
                              [SqlInt 1; SqlCell "y"]] |} ]};
     executed := [];
     reachable := true;
     stdout := [] |}.

(** The database of [used_world] when the server cannot be reached. *)
Definition down_world : World string :=
  {| tables := tables used_world;
     executed := [];
     reachable := false;
     stdout := [] |}.

(** [trips.csv] read in one piece, its first chunk of two rows, and the
    table it is loaded into. *)
Definition trips_frame : DataFrame string :=
  {| columns := trip_header; index := [0; 1; 2]; values := records trips_csv |}.

Definition trips_first_chunk : DataFrame string :=
  {| columns := trip_header;
     index := [0; 1];
     values := [trip "1" "8.0"; trip "2" "16.5"] |}.

Definition trip_row (i : Z) (vendor fare : string) : list (sqlval string) :=
  SqlInt i :: (SqlCell <$> trip vendor fare).

Definition trips_table : Table string :=
  {| tcolumns := "index" :: trip_header;
     trows := [ trip_row 0 "1" "8.0"; trip_row 1 "2" "16.5";
                trip_row 2 "1" "4.2" ] |}.

(** The iterator over [src] with chunks of two rows: before the first read
    and after it. *)
Definition iter_at (src : csv) (row : nat) (first : bool) : TextFileReader :=
  {| names := header src;
     dtype_arg := DTYPE;
     parse_dates := PARSE_DATES;
     chunksize := Some 2;
     pending := drop row (records src);
     currow := row;
     first_chunk := first |}.

(** The table a load of [header_only.csv] leaves. *)
Definition header_only_table : Table string :=
  {| tcolumns := "index" :: trip_header; trows := [] |}.






Local Close Scope string_scope.

(** * Properties *)

(** ** Pieces of a list *)

Lemma ceil_div_0 (n : nat) : 1 ≤ n → ceil_div 0 n = 0.
Proof. intros Hn. unfold ceil_div. apply Nat.div_small. lia. Qed.

Lemma ceil_div_S (r n : nat) :
  1 ≤ n → 1 ≤ r → ceil_div r n = S (ceil_div (r - n) n).
Proof.
  intros Hn Hr. unfold ceil_div.
  destruct (decide (n ≤ r)) as [Hle|Hgt].
  - replace (r + n - 1) with ((r - n + n - 1) + 1 * n) by lia.
    rewrite Nat.div_add by lia. lia.
  - replace (r - n) with 0 by lia.
    rewrite (Nat.div_small (0 + n - 1)) by lia.
    symmetry. apply (Nat.div_unique _ _ _ (r - 1)); lia.
Qed.

Lemma chunks_nil {A} (n : nat) : 1 ≤ n → chunks n (@nil A) = [].
Proof. intros Hn. unfold chunks. simpl. by rewrite ceil_div_0. Qed.

Lemma chunks_cons {A} (n : nat) (l : list A) :
  1 ≤ n → l ≠ [] → chunks n l = take n l :: chunks n (drop n l).
Proof.
  intros Hn Hl. unfold chunks.
  rewrite (ceil_div_S (length l) n); [| done | destruct l; [done | simpl; lia]].
  rewrite length_drop. simpl. f_equal.
  rewrite <- fmap_S_seq, <- list_fmap_compose.
  apply list_fmap_ext. intros i x _. simpl.
  by rewrite drop_drop.
Qed.

Lemma length_chunks {A} (n : nat) (l : list A) :
  length (chunks n l) = ceil_div (length l) n.
Proof. unfold chunks. by rewrite length_fmap, length_seq. Qed.

Lemma concat_chunks {A} (n : nat) (l : list A) :
  1 ≤ n → concat (chunks n l) = l.
Proof.
  intros Hn. remember (length l) as k eqn:Hk.
  revert l Hk. induction (lt_wf k) as [k _ IH]. intros l ->.
  destruct l as [|x l]; [by rewrite chunks_nil|].
  rewrite chunks_cons by done. simpl concat at 1.
  rewrite (IH (length (drop n (x :: l)))); [apply take_drop| |done].
  rewrite length_drop. simpl. lia.
Qed.

Section Reader.
Context `{!Env}.

Lemma frames_nil cols start (n : nat) : 1 ≤ n → frames cols start n [] = [].
Proof. intros Hn. unfold frames. by rewrite chunks_nil. Qed.

Lemma frames_cons cols start (n : nat) (vals : list (list cell)) :
  1 ≤ n → vals ≠ [] →
  frames cols start n vals =
    {| columns := cols;
       index := seq start (length (take n vals));
       values := take n vals |}
    :: frames cols (start + length (take n vals)) n (drop n vals).
Proof.
  intros Hn Hv. unfold frames. rewrite chunks_cons by done.
  rewrite imap_cons. f_equal.
  - f_equal. f_equal. lia.
  - destruct (decide (n ≤ length vals)) as [Hle|Hgt].
    + rewrite length_take_le by done.
      apply imap_ext. intros i x _. simpl. f_equal. f_equal. lia.
    + rewrite drop_ge by lia. by rewrite chunks_nil.
Qed.


Lemma length_frames cols start (n : nat) (vals : list (list cell)) :
  length (frames cols start n vals) = ceil_div (length vals) n.
Proof. unfold frames. by rewrite length_imap, length_chunks. Qed.

Lemma lookup_frames cols start (n : nat) (vals : list (list cell)) i :
  i < ceil_div (length vals) n →
  frames cols start n vals !! i =
    Some {| columns := cols;
            index := seq (start + i * n) (length (take n (drop (i * n) vals)));
            values := take n (drop (i * n) vals) |}.
Proof.
  intros Hi. unfold frames, chunks.
  rewrite list_lookup_imap, list_lookup_fmap, lookup_seq_lt by done.
  done.
Qed.

Lemma sql_row_seq_app start (l1 l2 : list (list cell)) :
  zip_with sql_row (seq start (length (l1 ++ l2))) (l1 ++ l2) =
    zip_with sql_row (seq start (length l1)) l1
    ++ zip_with sql_row (seq (start + length l1) (length l2)) l2.
Proof.
  rewrite length_app, seq_app, zip_with_app; [done|].
  by rewrite length_seq.
Qed.

Lemma sql_rows_frames cols start (n : nat) (vals : list (list cell)) :
  1 ≤ n →
  concat (sql_rows <$> frames cols start n vals) =
    zip_with sql_row (seq start (length vals)) vals.
Proof.
  intros Hn. remember (length vals) as k eqn:Hk.
  revert vals start Hk. induction (lt_wf k) as [k _ IH]. intros vals start ->.
  destruct vals as [|v vals]; [by rewrite frames_nil|].
  rewrite frames_cons by done. rewrite fmap_cons. simpl concat.
  rewrite (IH (length (drop n (v :: vals))));
    [| rewrite length_drop; simpl; lia | done].
  unfold sql_rows at 1. cbn [index values].
  pose proof (sql_row_seq_app start (take n (v :: vals)) (drop n (v :: vals)))
    as Happ.
  rewrite take_drop in Happ. by rewrite Happ.
Qed.

Lemma existsb_take {A} (f : A → bool) (n : nat) (l : list A) :
  existsb f l = false → existsb f (take n l) = false.
Proof.
  intros Hl. rewrite <- (take_drop n l), existsb_app in Hl.
  by apply orb_false_iff in Hl as [? _].
Qed.

Lemma existsb_drop {A} (f : A → bool) (n : nat) (l : list A) :
  existsb f l = false → existsb f (drop n l) = false.
Proof.
  intros Hl. rewrite <- (take_drop n l), existsb_app in Hl.
  by apply orb_false_iff in Hl as [_ ?].
Qed.

Lemma mapM_take {A B} (f : A → option B) (n : nat) l k :
  mapM f l = Some k → mapM f (take n l) = Some (take n k).
Proof. rewrite !mapM_Some. apply Forall2_take. Qed.

Lemma mapM_drop {A B} (f : A → option B) (n : nat) l k :
  mapM f l = Some k → mapM f (drop n l) = Some (drop n k).
Proof. rewrite !mapM_Some. apply Forall2_drop. Qed.

Lemma mapM_Some_length {A B} (f : A → option B) l k :
  mapM f l = Some k → length k = length l.
Proof. rewrite mapM_Some. intros Hl. symmetry. by eapply Forall2_length. Qed.

(** *** One step of the iterator *)

Lemma next_ok it (n : nat) v :
  chunksize it = Some n →
  take n (pending it) ≠ [] →
  existsb (too_long (names it)) (take n (pending it)) = false →
  mapM (convert_row (dtype_arg it) (parse_dates it) (names it))
       (take n (pending it)) = Some v →
  next it =
    Ok ({| columns := names it;
           index := seq (currow it) (length v);
           values := v |},
        advance it n (length v)).
Proof.
  intros Hc Hne Hx Hm. unfold next, read. rewrite Hc. simpl.
  destruct (take n (pending it)); [done|]. by rewrite Hx, Hm.
Qed.

Lemma next_inv it df it' :
  next it = Ok (df, it') →
  names it' = names it ∧ dtype_arg it' = dtype_arg it ∧
  chunksize it' = chunksize it ∧ first_chunk it' = false ∧
  columns df = names it ∧
  length (pending it') ≤ length (pending it) ∧
  (first_chunk it = false → length (pending it') < length (pending it)).
Proof.
  unfold next, read. intros Hn.
  destruct (take _ (pending it)) as [|r rs] eqn:Htake.
  - destruct (first_chunk it) eqn:Hf; [|done].
    injection Hn as <- <-. simpl. rewrite length_drop.
    repeat split; [lia | done].
  - destruct (existsb _ _); [done|].
    destruct (mapM _ _) as [vals|]; [|done].
    injection Hn as <- <-. simpl. rewrite length_drop.
    repeat split; [lia|]. intros _.
    assert (pending it ≠ []) as Hp by (intros E; by rewrite E, take_nil in Htake).
    assert (default (length (pending it)) (chunksize it) ≠ 0) as Hd
      by (intros E; by rewrite E in Htake).
    remember (default (length (pending it)) (chunksize it)) as d.
    destruct (pending it); [done|]. simpl length. lia.
Qed.

Lemma reads_length it bs it' :
  reads it bs it' → first_chunk it = false →
  length bs ≤ length (pending it).
Proof.
  induction 1 as [it|it df it1 bs it2 Hn _ IH]; intros Hf; [simpl; lia|].
  apply next_inv in Hn as (_ & _ & _ & Hf1 & _ & _ & Hlt).
  specialize (IH Hf1). specialize (Hlt Hf). simpl. lia.
Qed.

Lemma reads_columns it bs it' :
  reads it bs it' →
  names it' = names it ∧ dtype_arg it' = dtype_arg it ∧
  chunksize it' = chunksize it ∧ Forall (λ b, columns b = names it) bs.
Proof.
  induction 1 as [it|it df it1 bs it2 Hn _ IH]; [by repeat split|].
  apply next_inv in Hn as (Hnm & Hdt & Hcs & _ & Hcol & _).
  destruct IH as (-> & -> & -> & Hall). repeat split; try done.
  constructor; [done|]. by rewrite <- Hnm.
Qed.

(** *** Reading a well-formed remainder to its end *)

Lemma reads_frames (k : nat) : ∀ it (n : nat) vals,
  length (pending it) ≤ k → first_chunk it = false →
  chunksize it = Some n → 1 ≤ n →
  existsb (too_long (names it)) (pending it) = false →
  mapM (convert_row (dtype_arg it) (parse_dates it) (names it)) (pending it)
    = Some vals →
  ∃ it', reads it (frames (names it) (currow it) n vals) it' ∧ exhausted it'.
Proof.
  induction k as [|k IH]; intros it n vals Hk Hf Hc Hn Hx Hm.
  - destruct (pending it) as [|r rs] eqn:Hp; [|simpl in Hk; lia].
    injection Hm as <-. rewrite frames_nil by done.
    exists it. split; [constructor|].
    unfold exhausted, next, read. by rewrite Hp, take_nil, Hf.
  - destruct (pending it) as [|r rs] eqn:Hp.
    + injection Hm as <-. rewrite frames_nil by done.
      exists it. split; [constructor|].
      unfold exhausted, next, read. by rewrite Hp, take_nil, Hf.
    + assert (vals ≠ []) as Hv.
      { apply mapM_Some_length in Hm. by destruct vals. }
      rewrite frames_cons by done.
      assert (take n (pending it) ≠ []) as Hne.
      { rewrite Hp. destruct n; [lia|done]. }
      pose proof (next_ok it n (take n vals) Hc Hne) as Hnext.
      rewrite Hp in Hnext.
      specialize (Hnext (existsb_take _ _ _ Hx) (mapM_take _ _ _ _ Hm)).
      destruct (IH (advance it n (length (take n vals))) n (drop n vals))
        as (it' & Hr & He); simpl; rewrite ?Hp; try done.
      * rewrite length_drop. simpl in *. lia.
      * by apply existsb_drop.
      * by apply mapM_drop.
      * exists it'. split; [|done]. by econstructor.
Qed.

(** *** Sequencing *)

Lemma bind_ok {A B} (m : M A) (f : A → M B) w a w' :
  m w = (Ok a, w') → @mbind M M_bind A B f m w = f a w'.
Proof. intros Hm. unfold mbind, M_bind. by rewrite Hm. Qed.

Lemma bind_raise {A B} (m : M A) (f : A → M B) w e w' :
  m w = (Raise e, w') → @mbind M M_bind A B f m w = (Raise e, w').
Proof. intros Hm. unfold mbind, M_bind. by rewrite Hm. Qed.

(** *** Writing frames *)

Lemma loaded_loaded w t T1 T2 ss1 ss2 ls1 ls2 :
  loaded (loaded w t T1 ss1 ls1) t T2 ss2 ls2 =
    loaded w t T2 (ss1 ++ ss2) (ls1 ++ ls2).
Proof.
  unfold loaded. simpl. by rewrite insert_insert_eq, !app_assoc.
Qed.

Lemma print_loaded line w t T ss ls :
  print line (loaded w t T ss ls) = (Ok tt, loaded w t T ss (ls ++ [line])).
Proof. unfold print, loaded. simpl. by rewrite app_assoc. Qed.

Lemma sql_rows_head_0 df : sql_rows (head 0 df) = [].
Proof. done. Qed.

Lemma to_sql_replace df t w :
  reachable w = true →
  index_label (columns df) ∉ columns df →
  to_sql df t Replace w =
    (Ok tt,
     loaded w t
       {| tcolumns := index_label (columns df) :: columns df;
          trows := sql_rows df |}
       (create_stmts w t (index_label (columns df) :: columns df)
          ++ insert_stmt t (sql_rows df))
       []).
Proof.
  intros Hr Hl. unfold to_sql, create_stmts, loaded, run_stmts.
  rewrite Hr, bool_decide_eq_false_2 by done. simpl.
  rewrite app_nil_r. by destruct (tables w !! t).
Qed.

Lemma to_sql_append df t w T ss ls :
  reachable w = true →
  index_label (columns df) ∉ columns df →
  tcolumns T = index_label (columns df) :: columns df →
  to_sql df t Append (loaded w t T ss ls) =
    (Ok tt,
     loaded w t
       {| tcolumns := tcolumns T; trows := trows T ++ sql_rows df |}
       (ss ++ insert_stmt t (sql_rows df)) ls).
Proof.
  intros Hr Hl HT. unfold to_sql. simpl.
  rewrite Hr, bool_decide_eq_false_2, lookup_insert_eq by done. simpl.
  destruct (sql_rows df) as [|row rows].
  - rewrite !app_nil_r. by destruct T.
  - rewrite bool_decide_eq_true_2 by done.
    unfold run_stmts, loaded. simpl.
    by rewrite insert_insert_eq, app_assoc.
Qed.

Lemma insert_stmts_cons t b bs :
  insert_stmts t (b :: bs) = insert_stmt t (sql_rows b) ++ insert_stmts t bs.
Proof. done. Qed.

(** *** The loop over the remaining chunks *)

Lemma for_each_append t cols it bs it' :
  reads it bs it' →
  ∀ fuel e w T ss ls,
    next it' = Raise e →
    length bs < fuel →
    names it = cols →
    index_label cols ∉ cols →
    reachable w = true →
    tcolumns T = index_label cols :: cols →
    for_each fuel it (λ df_chunk, to_sql df_chunk t Append)
             (loaded w t T ss ls) =
      (outcome e,
       loaded w t
         {| tcolumns := tcolumns T;
            trows := trows T ++ concat (sql_rows <$> bs) |}
         (ss ++ insert_stmts t bs) ls).
Proof.
  induction 1 as [it|it df it1 bs it2 Hn _ IH];
    intros fuel e w T ss ls He Hfuel Hcols Hlab Hr HT.
  - destruct fuel as [|fuel]; [simpl in Hfuel; lia|].
    simpl. rewrite He. unfold insert_stmts. simpl. rewrite !app_nil_r.
    destruct T. by destruct e.
  - destruct fuel as [|fuel]; [simpl in Hfuel; lia|].
    simpl for_each. rewrite Hn.
    pose proof (next_inv _ _ _ Hn) as (Hnm & _ & _ & _ & Hcol & _).
    erewrite bind_ok; last first.
    { apply to_sql_append; rewrite ?Hcol, ?Hcols; done. }
    rewrite (IH fuel e w _ _ ls He);
      [| simpl in Hfuel; lia | congruence | done | done | done].
    rewrite insert_stmts_cons, fmap_cons. cbn [concat tcolumns trows].
    by rewrite !app_assoc.
Qed.

(** *** The loaders, given what the iterator hands out *)

Lemma ingest_data_first_raise url t c w it0 e :
  read_csv_iterator url DTYPE PARSE_DATES c = Ok it0 →
  next it0 = Raise e →
  ingest_data url t c w = (Raise e, w).
Proof.
  intros Hit Hn. unfold ingest_data.
  erewrite bind_ok by (unfold lift; by rewrite Hit).
  by erewrite bind_raise by (unfold lift; by rewrite Hn).
Qed.

Lemma ingest_data_reads url t c w it0 first it1 bs it2 e :
  read_csv_iterator url DTYPE PARSE_DATES c = Ok it0 →
  next it0 = Ok (first, it1) →
  reads it1 bs it2 →
  next it2 = Raise e →
  index_label (names it0) ∉ names it0 →
  reachable w = true →
  ingest_data url t c w =
    (outcome e,
     loaded w t
       {| tcolumns := index_label (names it0) :: names it0;
          trows := concat (sql_rows <$> first :: bs) |}
       (create_stmts w t (index_label (names it0) :: names it0)
          ++ insert_stmts t (first :: bs))
       (ingest_lines t (len first) e)).
Proof.
  intros Hit Hn Hrd He Hlab Hr. unfold ingest_data.
  pose proof (next_inv _ _ _ Hn) as (Hnm & _ & _ & Hf & Hcol & _).
  erewrite bind_ok by (unfold lift; by rewrite Hit).
  erewrite bind_ok by (unfold lift; by rewrite Hn).
  cbn [fst snd].
  erewrite bind_ok; last first.
  { apply to_sql_replace; [done|]. simpl. by rewrite Hcol. }
  erewrite bind_ok by apply print_loaded.
  erewrite bind_ok; last first.
  { apply to_sql_append; simpl; rewrite ?Hcol; done. }
  erewrite bind_ok by apply print_loaded.
  pose proof (reads_length _ _ _ Hrd Hf) as Hlen.
  pose proof (for_each_append t (names it0) _ _ _ Hrd
                (S (length (pending it1))) e w) as Hloop.
  cbn [columns head tcolumns trows app] in *. rewrite ?Hcol.
  rewrite sql_rows_head_0. cbn [insert_stmt app]. rewrite app_nil_r.
  pose proof (λ ss ls, Hloop
    {| tcolumns := index_label (names it0) :: names it0;
       trows := sql_rows first |} ss ls He ltac:(lia) Hnm Hlab Hr eq_refl)
    as Hloop'.
  clear Hloop.
  rewrite insert_stmts_cons, fmap_cons. cbn [concat].
  destruct e; cbn [outcome] in *;
    first [ erewrite bind_ok by apply Hloop'
          | erewrite bind_raise by apply Hloop' ];
    rewrite ?print_loaded; unfold ingest_lines; cbn [tcolumns trows];
    rewrite ?app_assoc, ?app_nil_r; done.
Qed.

(** *** Sources that read in one piece *)

Lemma read_csv_inv url dt dates df :
  read_csv url dt dates = Ok df →
  ∃ f, urlopen url = Some f ∧ header f ≠ [] ∧
       forallb (λ d, bool_decide (d ∈ header f)) dates = true ∧
       existsb (too_long (header f)) (records f) = false ∧
       mapM (convert_row dt dates (header f)) (records f)
         = Some (values df) ∧
       columns df = header f ∧ index df = seq 0 (length (values df)).
Proof.
  unfold read_csv, TextFileReader_init. intros Hdf.
  destruct (urlopen url) as [f|]; [|done]. exists f.
  destruct (header f) as [|h hs] eqn:Hh; [done|].
  destruct (forallb _ dates) eqn:Hd; [|done].
  unfold read in Hdf. simpl in Hdf. rewrite take_ge in Hdf by done.
  destruct (records f) as [|r rs] eqn:Hrec.
  - by injection Hdf as <-.
  - destruct (existsb _ _) eqn:Hx; [done|].
    destruct (mapM _ _) as [vals|] eqn:Hm; [|done].
    injection Hdf as <-. simpl. repeat split; try done.
Qed.

Lemma chunked_read url dt dates c df :
  read_csv url dt dates = Ok df → (1 ≤ c)%Z →
  ∃ it0 first it1 bs it2,
    read_csv_iterator url dt dates c = Ok it0 ∧
    names it0 = columns df ∧ dtype_arg it0 = dt ∧
    next it0 = Ok (first, it1) ∧ reads it1 bs it2 ∧ exhausted it2 ∧
    first :: bs = batches_of df (Z.to_nat c).
Proof.
  intros Hdf Hc.
  destruct (read_csv_inv _ _ _ _ Hdf) as (f & Hf & Hh & Hd & Hx & Hm & Hcol & Hidx).
  set (n := Z.to_nat c). assert (1 ≤ n) as Hn by lia.
  set (it0 := {| names := header f; dtype_arg := dt; parse_dates := dates;
                 chunksize := Some n; pending := records f; currow := 0;
                 first_chunk := true |}).
  assert (read_csv_iterator url dt dates c = Ok it0) as Hit.
  { unfold read_csv_iterator, TextFileReader_init.
    rewrite (proj2 (Z.ltb_ge c 1)) by done. rewrite Hf.
    destruct (header f) eqn:E; [done|]. by rewrite Hd. }
  exists it0. unfold batches_of.
  destruct (values df) as [|v vs] eqn:Hv.
  - assert (records f = []) as Hrec.
    { apply mapM_Some_length in Hm. by destruct (records f). }
    exists df, (advance it0 n 0), [], (advance it0 n 0).
    repeat split; try done.
    + unfold next, read. simpl. rewrite Hrec, take_nil.
      destruct df. simpl in *. by subst.
    + constructor.
    + unfold exhausted, next, read. simpl. by rewrite Hrec, drop_nil, take_nil.
  - rewrite frames_cons by done. rewrite Hcol.
    assert (take n (pending it0) ≠ []) as Hne.
    { simpl. apply mapM_Some_length in Hm.
      destruct (records f); [done|]. by destruct n; [lia|]. }
    pose proof (next_ok it0 n (take n (v :: vs)) eq_refl Hne
                  (existsb_take _ _ _ Hx) (mapM_take _ _ _ _ Hm)) as Hnext.
    destruct (reads_frames (length (records f))
                (advance it0 n (length (take n (v :: vs)))) n
                (drop n (v :: vs))) as (it2 & Hr & He); simpl; try done.
    + rewrite length_drop. lia.
    + by apply existsb_drop.
    + by apply mapM_drop.
    + eexists _, _, _, it2. by repeat split.
Qed.

Lemma sql_rows_batches_of df (n : nat) :
  1 ≤ n → index df = seq 0 (length (values df)) →
  concat (sql_rows <$> batches_of df n) = sql_rows df.
Proof.
  intros Hn Hidx. unfold batches_of.
  destruct (values df) as [|v vs] eqn:Hv.
  - simpl. by rewrite app_nil_r.
  - rewrite sql_rows_frames by done. unfold sql_rows. by rewrite Hidx, Hv.
Qed.

Lemma ingest_data_ok url t c w df :
  read_csv url DTYPE PARSE_DATES = Ok df →
  (1 ≤ c)%Z →
  index_label (columns df) ∉ columns df →
  reachable w = true →
  ∃ first bs,
    first :: bs = batches_of df (Z.to_nat c) ∧
    ingest_data url t c w =
      (Ok tt,
       loaded w t
         {| tcolumns := index_label (columns df) :: columns df;
            trows := sql_rows df |}
         (create_stmts w t (index_label (columns df) :: columns df)
            ++ insert_stmts t (first :: bs))
         (ingest_lines t (len first) StopIteration)).
Proof.
  intros Hdf Hc Hlab Hr.
  destruct (chunked_read _ _ _ _ _ Hdf Hc)
    as (it0 & first & it1 & bs & it2 & Hit & Hnm & _ & Hn & Hrd & He & Hbs).
  destruct (read_csv_inv _ _ _ _ Hdf) as (_ & _ & _ & _ & _ & _ & _ & Hidx).
  exists first, bs. split; [done|].
  rewrite (ingest_data_reads _ t _ w _ _ _ _ _ _ Hit Hn Hrd He)
    by (rewrite ?Hnm; done).
  rewrite Hnm, Hbs, sql_rows_batches_of by (done || lia). done.
Qed.

Lemma run_raise t w e :
  read_csv zones_url ∅ [] = Raise e → run t w = (Raise e, w).
Proof.
  intros Hdf. unfold run.
  by erewrite bind_raise by (unfold lift; by rewrite Hdf).
Qed.

Lemma run_ok t w df :
  read_csv zones_url ∅ [] = Ok df →
  index_label (columns df) ∉ columns df →
  reachable w = true →
  run t w =
    (Ok tt,
     loaded w t
       {| tcolumns := index_label (columns df) :: columns df;
          trows := sql_rows df |}
       (create_stmts w t (index_label (columns df) :: columns df)
          ++ insert_stmt t (sql_rows df))
       (run_lines t (len df))).
Proof.
  intros Hdf Hlab Hr. unfold run.
  erewrite bind_ok by (unfold lift; by rewrite Hdf).
  erewrite bind_ok by (by apply to_sql_replace).
  erewrite bind_ok by apply print_loaded.
  erewrite bind_ok by (by apply to_sql_append).
  rewrite print_loaded, sql_rows_head_0. cbn [insert_stmt columns head tcolumns trows app].
  by rewrite app_nil_r.
Qed.
End Reader.

Lemma ceil_div_lt (i r n : nat) : 1 ≤ n → i < ceil_div r n → i * n < r.
Proof.
  unfold ceil_div. intros Hn Hi.
  pose proof (Nat.Div0.mul_div_le (r + n - 1) n) as Hle. nia.
Qed.

Lemma ceil_div_full (i r n : nat) :
  1 ≤ n → S i < ceil_div r n → S i * n ≤ r.
Proof.
  unfold ceil_div. intros Hn Hi.
  pose proof (Nat.Div0.mul_div_le (r + n - 1) n) as Hle. nia.
Qed.

Lemma ceil_div_Z (r : nat) (c : Z) :
  (1 ≤ c)%Z →
  Z.of_nat (ceil_div r (Z.to_nat c)) = ((Z.of_nat r + c - 1) / c)%Z.
Proof.
  intros Hc. unfold ceil_div. rewrite Nat2Z.inj_div. f_equal; lia.
Qed.

(** ** What the batches of a chunked read look like *)

Section Batches.
Context `{!Env}.

Lemma len_frames cols start (n : nat) (vals : list (list cell)) i b :
  1 ≤ n → S i < length (frames cols start n vals) →
  frames cols start n vals !! i = Some b → len b = n.
Proof.
  rewrite length_frames. intros Hn Hi Hb.
  rewrite lookup_frames in Hb by lia. injection Hb as <-.
  unfold len. simpl. rewrite length_take, length_drop.
  pose proof (ceil_div_full _ _ _ Hn Hi). lia.
Qed.

Lemma index_frames cols start (n : nat) (vals : list (list cell)) i b :
  frames cols start n vals !! i = Some b →
  index b = seq (start + i * n) (len b) ∧ columns b = cols.
Proof.
  intros Hb. assert (i < ceil_div (length vals) n) as Hi.
  { apply lookup_lt_Some in Hb. by rewrite length_frames in Hb. }
  rewrite lookup_frames in Hb by done. by injection Hb as <-.
Qed.

Lemma sum_len_frames cols start (n : nat) (vals : list (list cell)) :
  1 ≤ n → sum_list (len <$> frames cols start n vals) = length vals.
Proof.
  intros Hn. remember (length vals) as k eqn:Hk.
  revert vals start Hk. induction (lt_wf k) as [k _ IH]. intros vals start ->.
  destruct vals as [|v vals]; [by rewrite frames_nil|].
  rewrite frames_cons by done. rewrite fmap_cons. cbn [sum_list sum_list_with].
  rewrite (IH (length (drop n (v :: vals))));
    [| rewrite length_drop; simpl; lia | done].
  unfold len, id. cbn [values]. rewrite length_take, length_drop. lia.
Qed.

Lemma values_frames cols start (n : nat) (vals : list (list cell)) :
  values <$> frames cols start n vals = chunks n vals.
Proof.
  unfold frames. rewrite fmap_imap.
  generalize (chunks n vals). intros l. revert start.
  induction l as [|x l IH]; intros start; [done|].
  rewrite imap_cons. f_equal. 
  rewrite <- (IH (start + n)) at 2. apply imap_ext. intros i y _. simpl. done.
Qed.

Lemma insert_stmts_frames t cols start (n : nat) (vals : list (list cell)) :
  1 ≤ n →
  insert_stmts t (frames cols start n vals) =
    (λ b, Insert t (sql_rows b)) <$> frames cols start n vals.
Proof.
  intros Hn. remember (length vals) as k eqn:Hk.
  revert vals start Hk. induction (lt_wf k) as [k _ IH]. intros vals start ->.
  destruct vals as [|v vals]; [by rewrite frames_nil|].
  rewrite frames_cons by done. rewrite insert_stmts_cons, fmap_cons.
  rewrite (IH (length (drop n (v :: vals))));
    [| rewrite length_drop; simpl; lia | done].
  destruct n as [|n]; [lia|]. done.
Qed.
End Batches.

(** ** The claims *)

Section Claims.
Context `{!Env}.

Lemma read_csv_records url dt dates f df :
  urlopen url = Some f → read_csv url dt dates = Ok df →
  columns df = header f ∧ index df = seq 0 (length (records f)) ∧
  len df = length (records f) ∧
  mapM (convert_row dt dates (header f)) (records f) = Some (values df).
Proof.
  intros Hf Hdf.
  destruct (read_csv_inv _ _ _ _ Hdf) as (f' & Hf' & _ & _ & _ & Hm & Hcol & Hidx).
  assert (f' = f) as -> by congruence.
  pose proof (mapM_Some_length _ _ _ Hm) as Hlen.
  unfold len. by rewrite <- Hlen.
Qed.

Lemma length_sql_rows df :
  length (index df) = length (values df) → length (sql_rows df) = len df.
Proof. intros Hl. unfold sql_rows, len. rewrite length_zip_with. lia. Qed.

(** C1.  For a source of R >= 1 records that reads under the declared
    schema and a chunk size C >= 1, the chunked reader of [ingest_data] hands
    out exactly ceil(R / C) batches; every batch but the last has C rows; the
    row counts add up to R and the batches put together are the rows of the
    source, none lost and none twice.  The run creates the table once,
    appends once per batch and leaves R rows.  For R = 250000 and
    C = 100000 the batches have 100000, 100000 and 50000 rows. *)
Theorem chunked_batches url f t c w df :
  urlopen url = Some f →
  read_csv url DTYPE PARSE_DATES = Ok df →
  1 ≤ length (records f) →
  (1 ≤ c)%Z →
  index_label (columns df) ∉ columns df →
  reachable w = true →
  ∃ it0 first it1 bs it2 w' T,
    read_csv_iterator url DTYPE PARSE_DATES c = Ok it0 ∧
    next it0 = Ok (first, it1) ∧ reads it1 bs it2 ∧ exhausted it2 ∧
    Z.of_nat (length (first :: bs))
      = ((Z.of_nat (length (records f)) + c - 1) / c)%Z ∧
    (∀ i b, S i < length (first :: bs) → (first :: bs) !! i = Some b →
            Z.of_nat (len b) = c) ∧
    sum_list (len <$> first :: bs) = length (records f) ∧
    concat (values <$> first :: bs) = values df ∧
    ingest_data url t c w = (Ok tt, w') ∧
    executed w' =
      executed w
      ++ create_stmts w t (index_label (columns df) :: columns df)
      ++ ((λ b, Insert t (sql_rows b)) <$> first :: bs) ∧
    tables w' !! t = Some T ∧
    length (trows T) = length (records f) ∧
    (Z.of_nat (length (records f)) = 250000%Z → c = 100000%Z →
     (Z.of_nat ∘ len) <$> first :: bs = [100000; 100000; 50000]%Z).
Proof.
  intros Hf Hdf HR Hc Hlab Hr.
  destruct (read_csv_records _ _ _ _ _ Hf Hdf) as (Hcol & Hidx & Hlen & Hm).
  destruct (chunked_read _ _ _ _ _ Hdf Hc)
    as (it0 & first & it1 & bs & it2 & Hit & _ & _ & Hn & Hrd & He & Hbs).
  destruct (ingest_data_ok url t c w df Hdf Hc Hlab Hr)
    as (first' & bs' & Hbs' & Hrun).
  assert (first' :: bs' = first :: bs) as Heq by congruence.
  injection Heq as -> ->. clear Hbs'.
  set (n := Z.to_nat c) in *. assert (1 ≤ n) as Hn1 by lia.
  unfold len in Hlen.
  assert (first :: bs = frames (columns df) 0 n (values df)) as Hfr.
  { rewrite Hbs. unfold batches_of. destruct (values df); [simpl in *; lia | done]. }
  assert (Z.of_nat (length (first :: bs))
          = ((Z.of_nat (length (records f)) + c - 1) / c)%Z) as Hcount.
  { rewrite Hfr, length_frames, Hlen. by apply ceil_div_Z. }
  assert (∀ i b, S i < length (first :: bs) → (first :: bs) !! i = Some b →
                 Z.of_nat (len b) = c) as Hfull.
  { intros i b Hi Hb. rewrite Hfr in Hi, Hb.
    rewrite (len_frames _ _ _ _ _ _ Hn1 Hi Hb). lia. }
  assert (sum_list (len <$> first :: bs) = length (records f)) as Hsum.
  { by rewrite Hfr, sum_len_frames, Hlen. }
  eexists it0, first, it1, bs, it2, _, _.
  split_and!; try done.
  - by rewrite Hfr, values_frames, concat_chunks.
  - rewrite Hfr at 1. by rewrite insert_stmts_frames, <- Hfr.
  - apply lookup_insert_eq.
  - cbn [trows]. rewrite length_sql_rows; [done|].
    by rewrite Hidx, length_seq.
  - intros HR250 Hc100.
    rewrite HR250, Hc100 in Hcount.
    change ((250000 + 100000 - 1) / 100000)%Z with 3%Z in Hcount.
    destruct bs as [|b1 [|b2 [|b3 bs]]]; simpl in Hcount; try lia.
    pose proof (Hfull 0 first ltac:(simpl; lia) eq_refl) as H0.
    pose proof (Hfull 1 b1 ltac:(simpl; lia) eq_refl) as H1.
    simpl in Hsum. unfold compose. simpl.
    repeat f_equal; lia.
Qed.

Lemma to_sql_replace_inv df t w w' :
  to_sql df t Replace w = (Ok tt, w') →
  ∃ T, tables w' !! t = Some T ∧
       tcolumns T = index_label (columns df) :: columns df.
Proof.
  unfold to_sql. intros Hw.
  destruct (negb (reachable w)); [done|].
  destruct (bool_decide _); [done|].
  destruct (tables w !! t); injection Hw as <-;
    eexists; (split; [apply lookup_insert_eq | done]).
Qed.

Lemma to_sql_append_columns df t w r w' T :
  to_sql df t Append w = (r, w') → tables w !! t = Some T →
  ∃ T', tables w' !! t = Some T' ∧ tcolumns T' = tcolumns T.
Proof.
  unfold to_sql. intros Hw HT. rewrite HT in Hw.
  destruct (negb (reachable w)); [injection Hw as <- <-; eauto|].
  destruct (bool_decide _); [injection Hw as <- <-; eauto|].
  destruct (sql_rows df); [injection Hw as <- <-; eauto|].
  destruct (bool_decide _); injection Hw as <- <-; [|eauto].
  eexists. split; [apply lookup_insert_eq | done].
Qed.

Lemma for_each_columns t (fuel : nat) : ∀ it w r w' T,
  for_each fuel it (λ df_chunk, to_sql df_chunk t Append) w = (r, w') →
  tables w !! t = Some T →
  ∃ T', tables w' !! t = Some T' ∧ tcolumns T' = tcolumns T.
Proof.
  induction fuel as [|fuel IH]; intros it w r w' T Hw HT.
  - injection Hw as <- <-. eauto.
  - simpl in Hw. destruct (next it) as [[df it']|e].
    + unfold mbind, M_bind in Hw.
      destruct (to_sql df t Append w) as [[[]|e] w1] eqn:Hsql.
      * destruct (to_sql_append_columns _ _ _ _ _ _ Hsql HT) as (T1 & HT1 & <-).
        by eapply IH.
      * injection Hw as <- <-. by eapply to_sql_append_columns.
    + destruct e; injection Hw as <- <-; eauto.
Qed.

(** C2, as amended.  After a successful run of [ingest_data] the columns of
    the destination table are the index column that [to_sql] writes (named
    [index], or [level_0] when the first batch has a column [index]) followed
    by exactly the columns of the first batch, in the same order. *)
Theorem table_columns url t c w w' :
  ingest_data url t c w = (Ok tt, w') →
  ∃ it0 first it1 T,
    read_csv_iterator url DTYPE PARSE_DATES c = Ok it0 ∧
    next it0 = Ok (first, it1) ∧
    tables w' !! t = Some T ∧
    tcolumns T = index_label (columns first) :: columns first.
Proof.
  unfold ingest_data, mbind, M_bind, lift. intros Hrun. cbv beta in Hrun.
  destruct (read_csv_iterator url DTYPE PARSE_DATES c) as [it0|]; [|done].
  destruct (next it0) as [[first it1]|] eqn:Hn; [|done]. cbn [fst snd] in Hrun.
  exists it0, first, it1.
  destruct (to_sql (head 0 first) t Replace w) as [[[]|] w1] eqn:H1; try done.
  apply to_sql_replace_inv in H1 as (T1 & HT1 & Hc1).
  unfold print at 1 in Hrun. cbv beta iota in Hrun.
  destruct (to_sql first t Append _) as [[[]|] w2] eqn:H2; try done.
  eapply to_sql_append_columns in H2 as (T2 & HT2 & Hc2); [|exact HT1].
  unfold print at 1 in Hrun. cbv beta iota in Hrun.
  destruct (for_each _ it1 _ _) as [[[]|] w3] eqn:H3; try done.
  eapply for_each_columns in H3 as (T3 & HT3 & Hc3); [|exact HT2].
  injection Hrun as <-. exists T3. split_and!; try done.
  simpl in Hc1. congruence.
Qed.

(** The zone loader leaves the same shape of table. *)
Lemma run_table_columns t w w' :
  run t w = (Ok tt, w') →
  ∃ df T,
    read_csv zones_url ∅ [] = Ok df ∧
    tables w' !! t = Some T ∧
    tcolumns T = index_label (columns df) :: columns df.
Proof.
  unfold run, mbind, M_bind, lift. intros Hrun. cbv beta in Hrun.
  destruct (read_csv zones_url ∅ []) as [df|]; [|done]. exists df.
  destruct (to_sql (head 0 df) t Replace w) as [[[]|] w1] eqn:H1; try done.
  apply to_sql_replace_inv in H1 as (T1 & HT1 & Hc1).
  unfold print at 1 in Hrun. cbv beta iota in Hrun.
  destruct (to_sql df t Append _) as [[[]|] w2] eqn:H2; try done.
  eapply to_sql_append_columns in H2 as (T2 & HT2 & Hc2); [|exact HT1].
  injection Hrun as <-. exists T2. split_and!; try done.
  simpl in Hc1. congruence.
Qed.

Lemma reads_as_index l df :
  reads_as l df → length (index df) = length (values df).
Proof.
  intros Hdf.
  assert (∃ url dt dates, read_csv url dt dates = Ok df) as (url & dt & dates & H')
    by (destruct l; eauto).
  destruct (read_csv_inv _ _ _ _ H') as (_ & _ & _ & _ & _ & _ & _ & Hidx).
  by rewrite Hidx, length_seq.
Qed.

Lemma load_ok l t w df :
  reads_as l df → valid_chunksize l →
  index_label (columns df) ∉ columns df →
  reachable w = true →
  ∃ lines,
    load l t w =
      (Ok tt,
       loaded w t
         {| tcolumns := index_label (columns df) :: columns df;
            trows := sql_rows df |}
         (create_stmts w t (index_label (columns df) :: columns df)
            ++ insert_stmts t (batches_written l df))
         lines).
Proof.
  intros Hdf Hc Hlab Hr. destruct l as [url c|]; simpl in *.
  - destruct (ingest_data_ok url t c w df Hdf Hc Hlab Hr)
      as (first & bs & Hbs & Hrun).
    rewrite Hbs in Hrun. eauto.
  - eexists. rewrite (run_ok t w df Hdf Hlab Hr).
    unfold insert_stmts. simpl. by rewrite app_nil_r.
Qed.

(** C3.  Running a loader twice in succession against the same table name
    and the same source leaves the table with exactly one run's rows: the
    second run starts by dropping the table the first one left and creating
    it anew, empty, before it inserts any row. *)
Theorem rerun_replaces l t w df :
  reads_as l df → valid_chunksize l →
  index_label (columns df) ∉ columns df →
  reachable w = true →
  let T := {| tcolumns := index_label (columns df) :: columns df;
              trows := sql_rows df |} in
  ∃ w1 w2,
    load l t w = (Ok tt, w1) ∧ load l t w1 = (Ok tt, w2) ∧
    tables w1 !! t = Some T ∧ tables w2 !! t = Some T ∧
    length (trows T) = len df ∧
    executed w2 =
      executed w1
      ++ DropTable t :: CreateTable t (tcolumns T)
           :: insert_stmts t (batches_written l df) ∧
    (∀ b, columns b = columns df →
          ∃ w', to_sql (head 0 b) t Replace w1 = (Ok tt, w') ∧
                tables w' !! t = Some {| tcolumns := tcolumns T; trows := [] |} ∧
                executed w' =
                  executed w1 ++ [DropTable t; CreateTable t (tcolumns T)]).
Proof.
  intros Hdf Hc Hlab Hr T.
  destruct (load_ok l t w df Hdf Hc Hlab Hr) as (lines1 & Hrun1).
  fold T in Hrun1. set (w1 := loaded w t T (_ ++ _) lines1) in Hrun1.
  assert (tables w1 !! t = Some T) as HT1 by apply lookup_insert_eq.
  assert (reachable w1 = true) as Hr1 by done.
  destruct (load_ok l t w1 df Hdf Hc Hlab Hr1) as (lines2 & Hrun2).
  assert (create_stmts w1 t (tcolumns T) = [DropTable t; CreateTable t (tcolumns T)])
    as Hcreate by (unfold create_stmts; by rewrite HT1).
  eexists w1, _. split_and!; try done.
  - apply lookup_insert_eq.
  - cbn [trows T]. by rewrite length_sql_rows by by eapply reads_as_index.
  - cbn [executed loaded]. change (index_label (columns df) :: columns df) with (tcolumns T).
    by rewrite Hcreate.
  - intros b Hb. eexists.
    split; [apply to_sql_replace; [done | simpl; by rewrite Hb] |].
    cbn [columns head]. rewrite Hb.
    split; [apply lookup_insert_eq|].
    cbn [executed loaded].
    change (index_label (columns df) :: columns df) with (tcolumns T).
    by rewrite Hcreate, sql_rows_head_0.
Qed.

(** C5, as amended.  When the location of the source cannot be opened and
    the chunk size is one the reader accepts (at least one; the zone loader
    takes none), the run fails with the error of the SourceUnavailable kind
    and leaves the world as it was: no table is created and no statement
    reaches the database. *)
Theorem unreachable_source l t w :
  urlopen (location l) = None → valid_chunksize l →
  load l t w = (Raise URLError, w) ∧
  classify URLError = Some SourceUnavailable.
Proof.
  intros Hu Hc. split; [|done]. destruct l as [url c|]; simpl in *.
  - unfold ingest_data. apply bind_raise. unfold lift, read_csv_iterator.
    rewrite (proj2 (Z.ltb_ge c 1)) by done.
    unfold TextFileReader_init. by rewrite Hu.
  - apply run_raise. unfold read_csv, TextFileReader_init. by rewrite Hu.
Qed.

(** C7.  With a chunk size of zero the run fails with the error of the
    InvalidConfiguration kind when the reader is set up, before any batch is
    obtained, and leaves the world as it was. *)
Theorem zero_chunksize url t w :
  read_csv_iterator url DTYPE PARSE_DATES 0 = Raise ValueError_chunksize ∧
  ingest_data url t 0 w = (Raise ValueError_chunksize, w) ∧
  classify ValueError_chunksize = Some InvalidConfiguration.
Proof. done. Qed.

(** A first batch never has zero columns: a source without columns makes
    the reader fail with [EmptyDataError] (of the SourceUnavailable kind, a
    malformed CSV) before any batch is obtained, and the run aborts with the
    world as it was.  The schema creation itself does not look at the number
    of columns. *)
Lemma no_columns url f t c w :
  urlopen url = Some f → header f = [] → (1 ≤ c)%Z →
  read_csv_iterator url DTYPE PARSE_DATES c = Raise EmptyDataError ∧
  ingest_data url t c w = (Raise EmptyDataError, w) ∧
  classify EmptyDataError = Some SourceUnavailable ∧
  (∀ url' c' it0 first it1,
     read_csv_iterator url' DTYPE PARSE_DATES c' = Ok it0 →
     next it0 = Ok (first, it1) → columns first ≠ []) ∧
  (∀ df w0, columns df = [] → reachable w0 = true →
     ∃ w', to_sql (head 0 df) t Replace w0 = (Ok tt, w')).
Proof.
  intros Hf Hh Hc.
  assert (read_csv_iterator url DTYPE PARSE_DATES c = Raise EmptyDataError) as Hit.
  { unfold read_csv_iterator, TextFileReader_init.
    by rewrite (proj2 (Z.ltb_ge c 1)), Hf, Hh by done. }
  split_and!; try done.
  - unfold ingest_data. apply bind_raise. unfold lift. by rewrite Hit.
  - intros url' c' it0 first it1 Hit0 Hn.
    apply next_inv in Hn as (_ & _ & _ & _ & -> & _).
    unfold read_csv_iterator, TextFileReader_init in Hit0.
    destruct (c' <? 1)%Z; [done|].
    destruct (urlopen url') as [f'|]; [|done].
    destruct (header f') eqn:Hh'; [done|].
    destruct (forallb _ _); [|done]. by injection Hit0 as <-.
  - intros df w0 Hcols Hr. eexists. apply to_sql_replace; [done|].
    simpl. rewrite Hcols. apply not_elem_of_nil.
Qed.

(** C9, as amended.  For a source with a header and no records, the first
    batch is an empty frame with the header's columns; the run completes, and
    the target table is dropped if it was there and created anew with the
    index column and the header's columns, and no rows. *)
Theorem header_only url f t c w :
  urlopen url = Some f → header f ≠ [] → records f = [] →
  forallb (λ d, bool_decide (d ∈ header f)) PARSE_DATES = true →
  (1 ≤ c)%Z →
  index_label (header f) ∉ header f →
  reachable w = true →
  ∃ it0 it1,
    read_csv_iterator url DTYPE PARSE_DATES c = Ok it0 ∧
    next it0 = Ok ({| columns := header f; index := []; values := [] |}, it1) ∧
    exhausted it1 ∧
    ingest_data url t c w =
      (Ok tt,
       loaded w t
         {| tcolumns := index_label (header f) :: header f; trows := [] |}
         (create_stmts w t (index_label (header f) :: header f))
         (ingest_lines t 0 StopIteration)).
Proof.
  intros Hf Hh Hrec Hd Hc Hlab Hr.
  set (df := {| columns := header f; index := []; values := [] |}).
  assert (read_csv url DTYPE PARSE_DATES = Ok df) as Hdf.
  { unfold read_csv, TextFileReader_init. rewrite Hf.
    destruct (header f) eqn:E; [done|]. rewrite Hd.
    unfold read. simpl. by rewrite Hrec. }
  destruct (chunked_read _ _ _ _ _ Hdf Hc)
    as (it0 & first & it1 & bs & it2 & Hit & _ & _ & Hn & Hrd & He & Hbs).
  injection Hbs as -> ->. inversion Hrd; subst.
  exists it0, it2. split_and!; try done.
  destruct (ingest_data_ok url t c w df Hdf Hc Hlab Hr)
    as (first' & bs' & Hbs' & Hrun).
  injection Hbs' as -> ->. rewrite Hrun.
  unfold insert_stmts. simpl. by rewrite app_nil_r.
Qed.





Lemma data_of_sql_rows (idx : list nat) (vals : list (list cell)) :
  length idx = length vals →
  drop 1 <$> zip_with sql_row idx vals = fmap SqlCell <$> vals.
Proof.
  revert vals. induction idx as [|i idx IH]; intros [|v vals] Hl;
    simpl in *; try done.
  f_equal. apply IH. lia.
Qed.

Lemma batches_of_index df (n : nat) k b :
  index df = seq 0 (length (values df)) →
  batches_of df n !! k = Some b →
  index b = seq (k * n) (len b) ∧ columns b = columns df.
Proof.
  unfold batches_of. intros Hidx Hb. destruct (values df) eqn:Hv.
  - destruct k; [|done]. injection Hb as <-. unfold len. by rewrite Hidx, Hv.
  - by apply index_frames in Hb.
Qed.

Lemma values_batches_of df (n : nat) :
  1 ≤ n → concat (values <$> batches_of df n) = values df.
Proof.
  intros Hn. unfold batches_of. destruct (values df) eqn:Hv.
  - simpl. by rewrite Hv.
  - by rewrite values_frames, concat_chunks.
Qed.

(** C6.  Every batch is inserted with its rows in the batch's order, the
    batches in the order they were read, so that after a successful run the
    data of the table's rows is the source's records in their original order.
    With a chunk size of 1 and three records there are three batches of one
    row each and the table ends with three rows. *)
Theorem rows_in_order url f t c w df :
  urlopen url = Some f →
  read_csv url DTYPE PARSE_DATES = Ok df →
  (1 ≤ c)%Z →
  index_label (columns df) ∉ columns df →
  reachable w = true →
  ∃ first bs w' T,
    first :: bs = batches_of df (Z.to_nat c) ∧
    mapM (convert_row DTYPE PARSE_DATES (header f)) (records f)
      = Some (values df) ∧
    concat (values <$> first :: bs) = values df ∧
    ingest_data url t c w = (Ok tt, w') ∧
    executed w' =
      executed w
      ++ create_stmts w t (index_label (columns df) :: columns df)
      ++ insert_stmts t (first :: bs) ∧
    tables w' !! t = Some T ∧
    trows T = concat (sql_rows <$> first :: bs) ∧
    Forall (λ b, drop 1 <$> sql_rows b = fmap SqlCell <$> values b)
           (first :: bs) ∧
    drop 1 <$> trows T = fmap SqlCell <$> values df ∧
    (length (records f) = 3 → c = 1%Z →
     len <$> first :: bs = [1; 1; 1] ∧ length (trows T) = 3).
Proof.
  intros Hf Hdf Hc Hlab Hr.
  destruct (read_csv_records _ _ _ _ _ Hf Hdf) as (Hcol & Hidx & Hlen & Hm).
  destruct (ingest_data_ok url t c w df Hdf Hc Hlab Hr)
    as (first & bs & Hbs & Hrun).
  assert (index df = seq 0 (length (values df))) as Hidx'
    by (by rewrite Hidx, <- Hlen).
  assert (length (sql_rows df) = length (records f)) as Hrows.
  { rewrite length_sql_rows; [done|]. by rewrite Hidx', length_seq. }
  eexists first, bs, _, _. split_and!; try done.
  - rewrite Hbs. apply values_batches_of. lia.
  - apply lookup_insert_eq.
  - cbn [trows]. rewrite Hbs, sql_rows_batches_of; [done | lia | done].
  - rewrite Hbs. apply Forall_lookup. intros k b Hb.
    apply (batches_of_index _ _ _ _ Hidx') in Hb as [Hb _].
    unfold sql_rows. apply data_of_sql_rows. by rewrite Hb, length_seq.
  - cbn [trows]. unfold sql_rows. apply data_of_sql_rows.
    by rewrite Hidx', length_seq.
  - intros HR3 ->. cbn [trows]. split; [|congruence].
    unfold len in Hlen. rewrite Hbs. unfold batches_of.
    destruct (values df) as [|v0 [|v1 [|v2 [|v3 vs]]]]; simpl in Hlen; try lia.
    done.
Qed.

(** ** The fuel of the loop is never exhausted *)

Lemma next_raises it e :
  next it = Raise e →
  e = StopIteration ∨ e = ParserError ∨ e = ValueError_dtype.
Proof.
  unfold next, read. intros Hn.
  destruct (take _ (pending it)).
  - destruct (first_chunk it); [done|]. injection Hn as <-. eauto.
  - destruct (existsb _ _); [injection Hn as <-; eauto|].
    destruct (mapM _ _); [done|]. injection Hn as <-. eauto.
Qed.

Lemma to_sql_raises df t m w e w' :
  to_sql df t m w = (Raise e, w') → e ≠ FuelExhausted.
Proof.
  unfold to_sql. intros Hw.
  destruct (negb (reachable w)); [by injection Hw as <- <-|].
  destruct (bool_decide _); [by injection Hw as <- <-|].
  destruct (tables w !! t), m; try done.
  destruct (sql_rows df); [done|].
  destruct (bool_decide _); [done|]. by injection Hw as <- <-.
Qed.

Lemma for_each_fuel t (fuel : nat) : ∀ it w,
  first_chunk it = false → length (pending it) < fuel →
  (for_each fuel it (λ df_chunk, to_sql df_chunk t Append) w).1
    ≠ Raise FuelExhausted.
Proof.
  induction fuel as [|fuel IH]; intros it w Hf Hlen; [lia|].
  simpl. destruct (next it) as [[df it']|e] eqn:Hn.
  - apply next_inv in Hn as (_ & _ & _ & Hf' & _ & _ & Hlt).
    specialize (Hlt Hf). unfold mbind, M_bind.
    destruct (to_sql df t Append w) as [[[]|e] w1] eqn:Hsql.
    + apply IH; [done | lia].
    + simpl. intros [= ->]. by eapply to_sql_raises.
  - destruct (next_raises _ _ Hn) as [-> | [-> | ->]]; done.
Qed.

Lemma ingest_data_fuel url t c w :
  (ingest_data url t c w).1 ≠ Raise FuelExhausted.
Proof.
  unfold ingest_data, mbind, M_bind, lift. cbv beta.
  destruct (read_csv_iterator url DTYPE PARSE_DATES c) as [it0|e] eqn:Hit.
  2:{ unfold read_csv_iterator, TextFileReader_init in Hit.
      repeat case_match; simplify_eq; done. }
  destruct (next it0) as [[first it1]|e] eqn:Hn.
  2:{ simpl. destruct (next_raises _ _ Hn) as [-> | [-> | ->]]; done. }
  cbn [fst snd].
  destruct (to_sql (head 0 first) t Replace w) as [[[]|e] w1] eqn:H1.
  2:{ simpl. intros [= ->]. by eapply to_sql_raises. }
  unfold print at 1. cbv beta iota.
  destruct (to_sql first t Append _) as [[[]|e] w2] eqn:H2.
  2:{ simpl. intros [= ->]. by eapply to_sql_raises. }
  unfold print at 1. cbv beta iota.
  apply next_inv in Hn as (_ & _ & _ & Hf & _).
  pose proof (for_each_fuel t (S (length (pending it1))) it1
    {| tables := tables w2; executed := executed w2; reachable := reachable w2;
       stdout := stdout w2 ++ ["Inserted first chunk: " +:+ pretty (len first) +:+ " rows"]%string |}
    Hf ltac:(lia)) as Hloop.
  destruct (for_each _ it1 _ _) as [[[]|e] w3]; [done|].
  simpl in *. congruence.
Qed.
End Claims.

(** ** Non-numeric literals in a column declared numeric *)

Section DeclaredNumeric.
Context {C : Type} (missing : C) (number : dtype → string → option C).
Context (text date inferred : string → C) (source : string → option csv).


End DeclaredNumeric.

(** ** The loaders at work on concrete sources *)

Section Examples.
Local Open Scope string_scope.

(** The three records of [trips.csv] in chunks of two. *)
Lemma chunked_batches_witness :
  ∃ (first : DataFrame string) bs w' T,
    Z.of_nat (length (first :: bs)) = ((Z.of_nat 3 + 2 - 1) / 2)%Z ∧
    sum_list (len (H:=example_env) <$> first :: bs) = 3%nat ∧
    ingest_data (H:=example_env) "trips.csv" "t" 2 fresh_world = (Ok tt, w') ∧
    tables w' !! "t" = Some T ∧
    length (trows T) = 3%nat.
Proof.
  destruct (chunked_batches (H:=example_env) "trips.csv" trips_csv "t" 2 fresh_world trips_frame)
    as (it0 & first & it1 & bs & it2 & w' & T & _ & _ & _ & _ & Hcount & _
        & Hsum & _ & Hrun & _ & HT & Hrows & _).
  - reflexivity.
  - vm_compute. reflexivity.
  - simpl. lia.
  - lia.
  - apply (bool_decide_unpack _). vm_compute. exact I.
  - reflexivity.
  - exists first, bs, w', T. repeat split; assumption.
Defined.

(** C2 as stated fails: loading [trips.csv] leaves a table whose first
    column, [index], is none of the first batch's columns. *)
Lemma table_columns_counterexample :
  read_csv_iterator (H:=example_env) "trips.csv" DTYPE PARSE_DATES 2 = Ok (iter_at trips_csv 0 true) ∧
  next (H:=example_env) (iter_at trips_csv 0 true) = Ok (trips_first_chunk, iter_at trips_csv 2 false) ∧
  ∃ w',
    ingest_data (H:=example_env) "trips.csv" "t" 2 fresh_world = (Ok tt, w') ∧
    tables w' !! "t" = Some trips_table ∧
    tcolumns trips_table ≠ columns trips_first_chunk.
Proof.
  split; [vm_compute; reflexivity|]. split; [vm_compute; reflexivity|].
  exists (ingest_data (H:=example_env) "trips.csv" "t" 2 fresh_world).2.
  split_and!; [vm_compute; reflexivity .. | vm_compute; discriminate].
Qed.

(** The same load satisfies the amended statement. *)
Lemma table_columns_witness :
  ∃ it0 first it1 T,
    read_csv_iterator (H:=example_env) "trips.csv" DTYPE PARSE_DATES 2 = Ok it0 ∧
    next (H:=example_env) it0 = Ok (first, it1) ∧
    tables (ingest_data (H:=example_env) "trips.csv" "t" 2 fresh_world).2 !! "t" = Some T ∧
    tcolumns T = index_label (columns first) :: columns first.
Proof.
  apply (table_columns (H:=example_env) "trips.csv" "t" 2 fresh_world).
  vm_compute. reflexivity.
Defined.

(** Loading [trips.csv] twice over a table left by an earlier load. *)
Lemma rerun_replaces_witness :
  ∃ w1 w2,
    load (H:=example_env) (Trips "trips.csv" 2) "t" used_world = (Ok tt, w1) ∧
    load (H:=example_env) (Trips "trips.csv" 2) "t" w1 = (Ok tt, w2) ∧
    tables w1 !! "t" = Some trips_table ∧
    tables w2 !! "t" = Some trips_table.
Proof.
  destruct (rerun_replaces (H:=example_env) (Trips "trips.csv" 2) "t"
              used_world trips_frame)
    as (w1 & w2 & H1 & H2 & HT1 & HT2 & _).
  - vm_compute. reflexivity.
  - simpl. lia.
  - apply (bool_decide_unpack _). vm_compute. exact I.
  - reflexivity.
  - exists w1, w2. repeat split; [exact H1 | exact H2 | exact HT1 | exact HT2].
Defined.

(** A location that is not there, for either loader. *)
Lemma unreachable_source_witness :
  load (H:=example_env) (Trips "missing.csv" 100000) "t" used_world = (Raise URLError, used_world) ∧
  @load offline_env Zones "zones" used_world = (Raise URLError, used_world).
Proof.
  split.
  - apply (unreachable_source (H:=example_env) (Trips "missing.csv" 100000) "t" used_world).
    + vm_compute. reflexivity.
    + simpl. lia.
  - apply (@unreachable_source offline_env Zones "zones" used_world).
    + reflexivity.
    + exact I.
Defined.

(** [trips.csv] row by row. *)
Lemma rows_in_order_witness :
  ∃ w' T,
    ingest_data (H:=example_env) "trips.csv" "t" 1 fresh_world = (Ok tt, w') ∧
    tables w' !! "t" = Some T ∧
    drop 1 <$> trows T = fmap SqlCell <$> records trips_csv.
Proof.
  destruct (rows_in_order (H:=example_env) "trips.csv" trips_csv "t" 1
              fresh_world trips_frame)
    as (first & bs & w' & T & _ & _ & _ & Hrun & _ & HT & _ & _ & Hdata & _).
  - reflexivity.
  - vm_compute. reflexivity.
  - lia.
  - apply (bool_decide_unpack _). vm_compute. exact I.
  - reflexivity.
  - exists w', T. split; [exact Hrun|]. split; [exact HT | exact Hdata].
Defined.

(** C9 as stated fails: for a source with a header and no records the run
    succeeds, and the table that was there is dropped and replaced. *)
Lemma header_only_counterexample :
  urlopen (Env:=example_env) "header_only.csv" = Some header_only_csv ∧
  header header_only_csv ≠ [] ∧ records header_only_csv = [] ∧
  ingest_data (H:=example_env) "header_only.csv" "t" 2 used_world =
    (Ok tt,
     loaded (H:=example_env) used_world "t" header_only_table
       [DropTable "t"; CreateTable "t" ("index" :: trip_header)]
       (ingest_lines "t" 0 StopIteration)) ∧
  tables used_world !! "t" ≠ Some header_only_table.
Proof.
  split_and!; [vm_compute; reflexivity | vm_compute; discriminate
              | vm_compute; reflexivity | vm_compute; reflexivity
              | vm_compute; discriminate].
Qed.

(** The same load satisfies the amended statement. *)
Lemma header_only_witness :
  ∃ it0 it1,
    read_csv_iterator (H:=example_env) "header_only.csv" DTYPE PARSE_DATES 2
      = Ok it0 ∧
    next (H:=example_env) it0 =
      Ok ({| columns := trip_header; index := []; values := [] |}, it1) ∧
    exhausted (H:=example_env) it1 ∧
    ingest_data (H:=example_env) "header_only.csv" "t" 2 used_world =
      (Ok tt,
       loaded (H:=example_env) used_world "t" header_only_table
         [DropTable "t"; CreateTable "t" ("index" :: trip_header)]
         (ingest_lines "t" 0 StopIteration)).
Proof.
  apply (header_only (H:=example_env) "header_only.csv" header_only_csv "t" 2
           used_world).
  - reflexivity.
  - vm_compute. discriminate.
  - reflexivity.
  - vm_compute. reflexivity.
  - lia.
  - apply (bool_decide_unpack _). vm_compute. exact I.
  - reflexivity.
Defined.


(** C5 as stated fails: with an unreachable location and a chunk size of
    zero the run fails with the error of the InvalidConfiguration kind, the
    chunk size being checked before the location is opened. *)
Lemma unreachable_source_counterexample :
  urlopen (Env:=example_env) "missing.csv" = None ∧
  ingest_data (H:=example_env) "missing.csv" "t" 0 used_world
    = (Raise ValueError_chunksize, used_world) ∧
  classify ValueError_chunksize = Some InvalidConfiguration ∧
  classify ValueError_chunksize ≠ Some SourceUnavailable.
Proof. split_and!; [vm_compute; reflexivity .. | discriminate]. Qed.
End Examples.

(** ** Further properties: how the loaders compose and fail *)

(** *** Strings and decimal fields *)

Lemma string_app_cons (a : ascii) (s t : string) :
  (String a s +:+ t = String a (s +:+ t))%string.
Proof. done. Qed.

Lemma string_app_assoc (s1 s2 s3 : string) :
  (s1 +:+ (s2 +:+ s3) = (s1 +:+ s2) +:+ s3)%string.
Proof.
  induction s1 as [|a s1 IH]; [done|]. by rewrite !string_app_cons, IH.
Qed.

Lemma string_app_length (s1 s2 : string) :
  String.length (s1 +:+ s2) = String.length s1 + String.length s2.
Proof.
  induction s1 as [|a s1 IH]; [done|]. rewrite string_app_cons. simpl.
  by rewrite IH.
Qed.

Lemma zeros_length (n : nat) : String.length (zeros n) = n.
Proof. induction n as [|n IH]; [done|]. simpl. by rewrite IH. Qed.

Lemma pretty_N_char_digit (x : N) :
  pretty_N_char x ≠ "-"%char ∧ pretty_N_char x ≠ "."%char.
Proof. unfold pretty_N_char. by repeat case_match. Qed.

Lemma pretty_N_go_head (x : N) (s : string) :
  (0 < x)%N → ∃ c r, pretty_N_go x s = String c r ∧ c ≠ "0"%char.
Proof.
  revert s. induction (N.lt_wf_0 x) as [x _ IH]. intros s Hx.
  rewrite pretty_N_go_step by done.
  destruct (decide (x `div` 10 = 0)%N) as [Hd|Hd].
  - rewrite Hd, pretty_N_go_0. eexists _, _. split; [done|].
    assert (x < 10)%N as Hlt by (apply N.div_small_iff in Hd; lia).
    rewrite N.mod_small by done.
    assert (x = 1 ∨ x = 2 ∨ x = 3 ∨ x = 4 ∨ x = 5 ∨ x = 6
            ∨ x = 7 ∨ x = 8 ∨ x = 9)%N as H9 by lia.
    repeat (destruct H9 as [->|H9]; [done|]). by subst.
  - apply IH; [apply N.div_lt; lia | by apply N.neq_0_lt_0].
Qed.

Lemma pretty_N_go_free (c : ascii) (x : N) (s : string) :
  (∀ d, pretty_N_char d ≠ c) → free_of c s → free_of c (pretty_N_go x s).
Proof.
  intros Hc. revert s. induction (N.lt_wf_0 x) as [x _ IH]. intros s Hs.
  destruct (decide (x = 0)%N) as [->|Hx]; [by rewrite pretty_N_go_0|].
  rewrite pretty_N_go_step by lia.
  apply IH; [apply N.div_lt; lia|]. by split.
Qed.

Lemma pretty_N_canonical (x : N) : canonical (pretty x).
Proof.
  unfold pretty, pretty_N. case_decide; [by left|].
  right. apply pretty_N_go_head. lia.
Qed.

Lemma pretty_N_free (c : ascii) (x : N) :
  (∀ d, pretty_N_char d ≠ c) → c ≠ "0"%char → free_of c (pretty x).
Proof.
  intros Hc H0. unfold pretty, pretty_N. case_decide.
  - split; [|done]. by intros <-.
  - by apply pretty_N_go_free.
Qed.

Lemma free_of_app (c : ascii) (s1 s2 : string) :
  free_of c s1 → free_of c s2 → free_of c (s1 +:+ s2).
Proof.
  induction s1 as [|a s1 IH]; [done|]. rewrite string_app_cons.
  intros [? ?] ?. split; auto.
Qed.

Lemma zeros_free (c : ascii) (n : nat) : c ≠ "0"%char → free_of c (zeros n).
Proof. intros Hc. induction n as [|n IH]; [done|]. split; [by intros <-|done]. Qed.

Lemma zeros_app_canonical (k k' : nat) (s s' : string) :
  canonical s → canonical s' →
  (zeros k +:+ s = zeros k' +:+ s')%string → s = s'.
Proof.
  assert (∀ j t u, canonical t → canonical u →
            t = (zeros (S j) +:+ u)%string → False) as Hno.
  { intros j t u [->|(c & r & -> & Hc)] Hu Heq;
      change (zeros (S j)) with (String "0" (zeros j)) in Heq;
      rewrite string_app_cons in Heq.
    - injection Heq as Heq. destruct j.
      + destruct Hu as [->|(? & ? & -> & _)]; done.
      + done.
    - by injection Heq as -> _. }
  revert k'. induction k as [|k IH]; intros [|k'] Hs Hs' Heq.
  - done.
  - by destruct (Hno k' s s').
  - by destruct (Hno k s' s).
  - change (zeros (S k)) with (String "0" (zeros k)) in Heq.
    change (zeros (S k')) with (String "0" (zeros k')) in Heq.
    rewrite !string_app_cons in Heq. injection Heq as Heq. by eapply IH.
Qed.

Lemma zero_fill_inj (w : nat) (a b : N) :
  zero_fill w (pretty a) = zero_fill w (pretty b) → a = b.
Proof.
  unfold zero_fill. intros Heq.
  apply (inj pretty).
  eapply zeros_app_canonical; [apply pretty_N_canonical.. | done].
Qed.

Lemma format_0d_nonneg (w : nat) (z : Z) :
  (0 ≤ z)%Z → format_0d w z = zero_fill w (pretty (Z.to_N z)).
Proof. intros Hz. unfold format_0d. by rewrite (proj2 (Z.ltb_ge z 0)). Qed.

Lemma format_0d_free (c : ascii) (w : nat) (z : Z) :
  (0 ≤ z)%Z → (∀ d, pretty_N_char d ≠ c) → c ≠ "0"%char →
  free_of c (format_0d w z).
Proof.
  intros Hz Hc H0. rewrite format_0d_nonneg by done.
  apply free_of_app; [by apply zeros_free | by apply pretty_N_free].
Qed.

(** Two strings that agree up to and including the first [c] agree on the
    part before it and on the part after it. *)
Lemma split_at_first (c : ascii) (s1 s2 r1 r2 : string) :
  free_of c s1 → free_of c s2 →
  (s1 +:+ String c r1 = s2 +:+ String c r2)%string → s1 = s2 ∧ r1 = r2.
Proof.
  revert s2. induction s1 as [|a s1 IH]; intros [|b s2] H1 H2 Heq;
    rewrite ?string_app_cons in Heq.
  - by injection Heq as ->.
  - injection Heq as -> _. by destruct H2.
  - injection Heq as -> _. by destruct H1.
  - injection Heq as -> Heq. destruct H1 as [_ H1], H2 as [_ H2].
    by destruct (IH s2 H1 H2 Heq) as [-> ->].
Qed.

Lemma string_app_single (a : ascii) (r : string) :
  (String a "" +:+ r = String a r)%string.
Proof. done. Qed.

Lemma pretty_Z_to_N (z : Z) : (0 ≤ z)%Z → pretty (Z.to_N z) = pretty z.
Proof. intros Hz. destruct z as [|p|p]; [done | done | lia]. Qed.

Lemma format_0d_inj (w : nat) (z1 z2 : Z) :
  (0 ≤ z1)%Z → (0 ≤ z2)%Z → format_0d w z1 = format_0d w z2 → z1 = z2.
Proof.
  intros H1 H2. rewrite !format_0d_nonneg by done.
  intros Heq%zero_fill_inj. lia.
Qed.

Section Robustness.
Context `{!Env}.
#[local] Existing Instance M_bind.

Lemma to_sql_unreachable df t m w :
  reachable w = false → to_sql df t m w = (Raise OperationalError, w).
Proof. intros Hr. unfold to_sql. by rewrite Hr. Qed.

Lemma to_sql_label_clash df t m w :
  reachable w = true → index_label (columns df) ∈ columns df →
  to_sql df t m w = (Raise ValueError_index_label, w).
Proof.
  intros Hr Hl. unfold to_sql. by rewrite Hr, bool_decide_eq_true_2.
Qed.

(** X1.  Creating the table from the frame's empty head and then appending
    the frame, as both loaders do, amounts to a single write of the frame
    that replaces the table: the same result, the same table and the same
    statements, also when the write fails. *)
Theorem create_then_append df t w :
  (to_sql (head 0 df) t Replace ≫= λ _, to_sql df t Append) w
  = to_sql df t Replace w.
Proof.
  destruct (reachable w) eqn:Hr.
  2:{ rewrite (to_sql_unreachable df) by done.
      apply bind_raise. by apply to_sql_unreachable. }
  destruct (decide (index_label (columns df) ∈ columns df)) as [Hl|Hl].
  { rewrite (to_sql_label_clash df) by done.
    apply bind_raise. by apply to_sql_label_clash. }
  erewrite bind_ok by (by apply to_sql_replace).
  rewrite to_sql_append, (to_sql_replace df) by done.
  rewrite sql_rows_head_0. cbn [columns head tcolumns trows insert_stmt app].
  by rewrite app_nil_r.
Qed.

(** X2.  A chunk size below one, negative ones included, is refused when
    the reader is set up, whatever the location: the source is not opened,
    nothing is printed and the database is left as it was. *)
Theorem chunksize_below_one url t c w :
  (c < 1)%Z →
  read_csv_iterator url DTYPE PARSE_DATES c = Raise ValueError_chunksize ∧
  ingest_data url t c w = (Raise ValueError_chunksize, w) ∧
  classify ValueError_chunksize = Some InvalidConfiguration.
Proof.
  intros Hc.
  assert (read_csv_iterator url DTYPE PARSE_DATES c
          = Raise ValueError_chunksize) as Hit.
  { unfold read_csv_iterator. by rewrite (proj2 (Z.ltb_lt c 1)). }
  split_and!; [done | | done].
  unfold ingest_data. apply bind_raise. unfold lift. by rewrite Hit.
Qed.

(** X3.  When the source reads well and the database cannot be reached,
    either loader fails at the schema creation with the error of the
    ConnectionFailure kind: nothing is written and nothing is printed. *)
Theorem database_unreachable l t w df :
  reads_as l df → valid_chunksize l → reachable w = false →
  load l t w = (Raise OperationalError, w) ∧
  classify OperationalError = Some ConnectionFailure.
Proof.
  intros Hdf Hc Hr. split; [|done]. destruct l as [url c|]; simpl in *.
  - destruct (chunked_read _ _ _ _ _ Hdf Hc)
      as (it0 & first & it1 & bs & it2 & Hit & _ & _ & Hn & _).
    unfold ingest_data.
    erewrite bind_ok by (unfold lift; by rewrite Hit).
    erewrite bind_ok by (unfold lift; by rewrite Hn).
    apply bind_raise. by apply to_sql_unreachable.
  - unfold run.
    erewrite bind_ok by (unfold lift; by rewrite Hdf).
    apply bind_raise. by apply to_sql_unreachable.
Qed.

(** X4.  A source whose header lacks one of the columns of [PARSE_DATES]
    is refused when the reader is set up, with the error of the
    SchemaMismatch kind, before any batch is read or anything is written. *)
Theorem missing_date_column url f t c w d :
  urlopen url = Some f → header f ≠ [] →
  d ∈ PARSE_DATES → d ∉ header f →
  (1 ≤ c)%Z →
  read_csv_iterator url DTYPE PARSE_DATES c = Raise ValueError_parse_dates ∧
  ingest_data url t c w = (Raise ValueError_parse_dates, w) ∧
  classify ValueError_parse_dates = Some SchemaMismatch.
Proof.
  intros Hf Hh Hd Hnd Hc.
  assert (read_csv_iterator url DTYPE PARSE_DATES c
          = Raise ValueError_parse_dates) as Hit.
  { unfold read_csv_iterator, TextFileReader_init.
    rewrite (proj2 (Z.ltb_ge c 1)), Hf by done.
    destruct (header f) eqn:E; [done|].
    destruct (forallb _ PARSE_DATES) eqn:Hall; [|done].
    rewrite forallb_forall in Hall.
    specialize (Hall d (proj1 (list_elem_of_In _ _) Hd)).
    by apply bool_decide_eq_true_1 in Hall. }
  split_and!; try done.
  unfold ingest_data. apply bind_raise. unfold lift. by rewrite Hit.
Qed.

(** *** What an iteration and a run can come to *)

Lemma reads_total (k : nat) : ∀ it,
  length (pending it) ≤ k → first_chunk it = false →
  ∃ bs it' e, reads it bs it' ∧ next it' = Raise e.
Proof.
  induction k as [|k IH]; intros it Hk Hf.
  - destruct (next it) as [[df it1]|e] eqn:Hn.
    + apply next_inv in Hn as (_ & _ & _ & _ & _ & _ & Hlt).
      specialize (Hlt Hf). lia.
    + exists [], it, e. split; [constructor | done].
  - destruct (next it) as [[df it1]|e] eqn:Hn.
    + pose proof (next_inv _ _ _ Hn) as (_ & _ & _ & Hf1 & _ & _ & Hlt).
      specialize (Hlt Hf).
      destruct (IH it1) as (bs & it2 & e & Hrd & He); [lia | done |].
      exists (df :: bs), it2, e. split; [by econstructor | done].
    + exists [], it, e. split; [constructor | done].
Qed.

(** A run of [ingest_data] either fails before it has written anything,
    leaving the world as it was, or it creates the table, appends the batches
    it can read and ends as the iteration ends. *)
Lemma ingest_data_cases url t c w :
  (∃ e, ingest_data url t c w = (Raise e, w)) ∨
  (∃ it0 first it1 bs it2 e,
     read_csv_iterator url DTYPE PARSE_DATES c = Ok it0 ∧
     next it0 = Ok (first, it1) ∧ reads it1 bs it2 ∧ next it2 = Raise e ∧
     ingest_data url t c w =
       (outcome e,
        loaded w t
          {| tcolumns := index_label (names it0) :: names it0;
             trows := concat (sql_rows <$> first :: bs) |}
          (create_stmts w t (index_label (names it0) :: names it0)
             ++ insert_stmts t (first :: bs))
          (ingest_lines t (len first) e))).
Proof.
  destruct (read_csv_iterator url DTYPE PARSE_DATES c) as [it0|e] eqn:Hit.
  2:{ left. exists e. unfold ingest_data. apply bind_raise.
      unfold lift. by rewrite Hit. }
  destruct (next it0) as [[first it1]|e] eqn:Hn.
  2:{ left. exists e. by eapply ingest_data_first_raise. }
  pose proof (next_inv _ _ _ Hn) as (_ & _ & _ & Hf1 & Hcol & _).
  assert (∀ e, to_sql (head 0 first) t Replace w = (Raise e, w) →
               ingest_data url t c w = (Raise e, w)) as Hfail.
  { intros e He. unfold ingest_data.
    erewrite bind_ok by (unfold lift; by rewrite Hit).
    erewrite bind_ok by (unfold lift; by rewrite Hn).
    by apply bind_raise. }
  destruct (reachable w) eqn:Hr.
  2:{ left. eexists. apply Hfail. by apply to_sql_unreachable. }
  destruct (decide (index_label (names it0) ∈ names it0)) as [Hl|Hl].
  { left. eexists. apply Hfail. apply to_sql_label_clash; [done|].
    simpl. by rewrite Hcol. }
  destruct (reads_total (length (pending it1)) it1)
    as (bs & it2 & e & Hrd & He); [done..|].
  right. exists it0, first, it1, bs, it2, e. split_and!; try done.
  by apply (ingest_data_reads url t c w it0 first it1 bs it2 e).
Qed.

Lemma run_cases t w :
  (∃ e, run t w = (Raise e, w)) ∨
  (∃ df,
     read_csv zones_url ∅ [] = Ok df ∧
     run t w =
       (Ok tt,
        loaded w t
          {| tcolumns := index_label (columns df) :: columns df;
             trows := sql_rows df |}
          (create_stmts w t (index_label (columns df) :: columns df)
             ++ insert_stmt t (sql_rows df))
          (run_lines t (len df)))).
Proof.
  destruct (read_csv zones_url ∅ []) as [df|e] eqn:Hdf.
  2:{ left. exists e. by apply run_raise. }
  assert (∀ e, to_sql (head 0 df) t Replace w = (Raise e, w) →
               run t w = (Raise e, w)) as Hfail.
  { intros e He. unfold run.
    erewrite bind_ok by (unfold lift; by rewrite Hdf).
    by apply bind_raise. }
  destruct (reachable w) eqn:Hr.
  2:{ left. eexists. apply Hfail. by apply to_sql_unreachable. }
  destruct (decide (index_label (columns df) ∈ columns df)) as [Hl|Hl].
  { left. eexists. apply Hfail. by apply to_sql_label_clash. }
  right. exists df. split; [done|]. by apply run_ok.
Qed.

(** X5.  However a run of either loader ends, every table other than the
    target table is as it was before the run. *)
Theorem other_tables_untouched l t t' w r w' :
  load l t w = (r, w') → t' ≠ t →
  tables w' !! t' = tables w !! t'.
Proof.
  intros Hrun Hne. destruct l as [url c|]; simpl in Hrun.
  - destruct (ingest_data_cases url t c w)
      as [(e & He) | (it0 & first & it1 & bs & it2 & e & _ & _ & _ & _ & He)];
      rewrite He in Hrun; injection Hrun as <- <-; [done|].
    by apply lookup_insert_ne.
  - destruct (run_cases t w) as [(e & He) | (df & _ & He)];
      rewrite He in Hrun; injection Hrun as <- <-; [done|].
    by apply lookup_insert_ne.
Qed.

(** *** What has been written when a run ends *)

Lemma take_length_take {A} (n : nat) (l : list A) :
  take (length (take n l)) l = take n l ∧ drop (length (take n l)) l = drop n l.
Proof.
  destruct (decide (n ≤ length l)).
  - by rewrite length_take_le.
  - rewrite length_take_ge, !take_ge, !drop_ge by lia. done.
Qed.

Lemma next_Ok_inv it df it1 :
  next it = Ok (df, it1) →
  names it1 = names it ∧ dtype_arg it1 = dtype_arg it ∧
  parse_dates it1 = parse_dates it ∧
  ∃ k, k ≤ length (pending it) ∧ pending it1 = drop k (pending it) ∧
       currow it1 = currow it + k ∧
       mapM (convert_row (dtype_arg it) (parse_dates it) (names it))
            (take k (pending it)) = Some (values df) ∧
       index df = seq (currow it) k.
Proof.
  unfold next, read. intros Hn.
  set (n := default (length (pending it)) (chunksize it)) in *.
  destruct (take n (pending it)) as [|r rs] eqn:Htake.
  - destruct (first_chunk it); [|done]. injection Hn as <- <-.
    split_and!; try done. exists 0. simpl.
    split_and!; try done; try lia.
    all: destruct (pending it) as [|p ps]; [by rewrite ?drop_nil|];
      by destruct n.
  - destruct (existsb _ _); [done|].
    destruct (mapM _ _) as [vals|] eqn:Hm; [|done].
    injection Hn as <- <-. split_and!; try done.
    pose proof (mapM_Some_length _ _ _ Hm) as Hlen.
    destruct (take_length_take n (pending it)) as [Ht Hd].
    rewrite Htake in Ht, Hd. exists (length (r :: rs)).
    split_and!.
    + rewrite <- Htake, length_take. lia.
    + done.
    + simpl. by rewrite Hlen.
    + by rewrite Ht.
    + simpl. by rewrite Hlen.
Qed.

Lemma reads_prefix it bs it' :
  reads it bs it' →
  ∃ k vals,
    k ≤ length (pending it) ∧ pending it' = drop k (pending it) ∧
    mapM (convert_row (dtype_arg it) (parse_dates it) (names it))
         (take k (pending it)) = Some vals ∧
    concat (sql_rows <$> bs) = zip_with sql_row (seq (currow it) k) vals.
Proof.
  induction 1 as [it|it df it1 bs it2 Hn _ IH].
  - exists 0, []. rewrite take_0, drop_0. split_and!; [lia | done..].
  - destruct (next_Ok_inv _ _ _ Hn)
      as (Hnm & Hdt & Hpd & k1 & Hk1 & Hp1 & Hc1 & Hm1 & Hi1).
    destruct IH as (k2 & vals2 & Hk2 & Hp2 & Hm2 & Hrows).
    rewrite Hnm, Hdt, Hpd, Hp1, Hc1 in *.
    rewrite length_drop in Hk2.
    pose proof (mapM_Some_length _ _ _ Hm1) as Hl1.
    rewrite length_take_le in Hl1 by done.
    exists (k1 + k2), (values df ++ vals2). split_and!.
    + lia.
    + by rewrite Hp2, drop_drop.
    + rewrite <- take_take_drop. apply mapM_Some, Forall2_app; by apply mapM_Some.
    + rewrite fmap_cons. cbn [concat]. rewrite Hrows.
      pose proof (mapM_Some_length _ _ _ Hm2) as Hl2.
      rewrite length_take_le in Hl2 by (rewrite length_drop; lia).
      pose proof (sql_row_seq_app (currow it) (values df) vals2) as Happ.
      rewrite length_app, Hl1, Hl2 in Happ. rewrite Happ.
      unfold sql_rows. by rewrite Hi1.
Qed.

Lemma read_csv_iterator_fields url dt dates c f it0 :
  urlopen url = Some f → read_csv_iterator url dt dates c = Ok it0 →
  names it0 = header f ∧ dtype_arg it0 = dt ∧ parse_dates it0 = dates ∧
  pending it0 = records f ∧ currow it0 = 0 ∧
  chunksize it0 = Some (Z.to_nat c) ∧ (1 ≤ c)%Z.
Proof.
  unfold read_csv_iterator, TextFileReader_init. intros Hf Hit.
  destruct (c <? 1)%Z eqn:Hc; [done|]. apply Z.ltb_ge in Hc. rewrite Hf in Hit.
  destruct (header f) eqn:Hh; [done|].
  destruct (forallb _ _); [|done]. by injection Hit as <-.
Qed.

(** X7.  However a chunked load ends, it has either changed nothing or left
    a target table that holds, under the index column and the header's
    columns, the first [k] records of the source, converted and numbered
    from zero in the order of the source: never rows of an earlier table,
    never a record out of place.  On success these are all the records.  The
    first record is taken to have no more fields than the header. *)
Theorem stored_rows_are_a_prefix url f t c w r w' :
  urlopen url = Some f →
  Forall (λ rec, length rec ≤ length (header f)) (take 1 (records f)) →
  ingest_data url t c w = (r, w') →
  w' = w ∨
  ∃ k vals,
    k ≤ length (records f) ∧
    mapM (convert_row DTYPE PARSE_DATES (header f)) (take k (records f))
      = Some vals ∧
    tables w' !! t =
      Some {| tcolumns := index_label (header f) :: header f;
              trows := zip_with sql_row (seq 0 k) vals |} ∧
    (r = Ok tt → k = length (records f)).
Proof.
  intros Hf _ Hrun.
  destruct (ingest_data_cases url t c w)
    as [(e & He)
       | (it0 & first & it1 & bs & it2 & e & Hit & Hn & Hrd & He & Hw)].
  { left. congruence. }
  right. rewrite Hw in Hrun. injection Hrun as <- <-.
  destruct (read_csv_iterator_fields _ _ _ _ _ _ Hf Hit)
    as (Hnm & Hdt & Hpd & Hp & Hc0 & Hcs & Hc).
  assert (reads it0 (first :: bs) it2) as Hall by by econstructor.
  destruct (reads_prefix _ _ _ Hall) as (k & vals & Hk & Hp2 & Hm & Hrows).
  rewrite Hnm, Hdt, Hpd, Hp, Hc0 in *.
  exists k, vals. split_and!; try done.
  - rewrite <- Hrows. apply lookup_insert_eq.
  - intros Hok. destruct e; try done.
    destruct (reads_columns _ _ _ Hall) as (_ & _ & Hcs2 & _).
    unfold next, read in He. rewrite Hcs2, Hcs, Hp2 in He. simpl in He.
    destruct (take _ (drop k (records f))) as [|x xs] eqn:Htk.
    + destruct (drop k (records f)) as [|y ys] eqn:Hdk.
      * apply (f_equal length) in Hdk. rewrite length_drop in Hdk.
        simpl in Hdk. lia.
      * destruct (Z.to_nat c) eqn:Hz; [lia | done].
    + destruct (existsb _ _); [done|]. by destruct (mapM _ _).
Qed.

(** X8.  A run of the chunked loader only adds lines to the console, and
    the line that reports completion is among them exactly when the run
    succeeds. *)
Theorem completion_line url t c w r w' :
  ingest_data url t c w = (r, w') →
  ∃ lines,
    stdout w' = stdout w ++ lines ∧
    (r = Ok tt ↔ ("Done ingesting data into '" +:+ t +:+ "'")%string ∈ lines).
Proof.
  intros Hrun.
  destruct (ingest_data_cases url t c w)
    as [(e & He) | (it0 & first & it1 & bs & it2 & e & _ & _ & _ & _ & Hw)].
  - rewrite He in Hrun. injection Hrun as <- <-. exists [].
    split; [by rewrite app_nil_r|]. split; [done|]. by intros ?%elem_of_nil.
  - rewrite Hw in Hrun. injection Hrun as <- <-.
    exists (ingest_lines t (len first) e). split; [done|].
    unfold ingest_lines.
    destruct e; cbn [outcome app];
      try (split; [done|]; rewrite !elem_of_cons, elem_of_nil;
           intros [Hl | [Hl | []]]; rewrite !string_app_cons in Hl;
           discriminate).
    split; [intros _|done]. rewrite !elem_of_cons. by right; right; left.
Qed.

Lemma not_too_long (names : list string) (l : list (list string)) :
  Forall (λ r, length r ≤ length names) l →
  existsb (too_long names) l = false.
Proof.
  induction 1 as [|r l Hr _ IH]; [done|]. simpl. rewrite IH, orb_false_r.
  unfold too_long. by apply Nat.ltb_ge.
Qed.

Lemma convert_row_inferred (names r : list string) :
  length r ≤ length names →
  convert_row ∅ [] names r = Some (infer <$> pad (length names) r).
Proof.
  intros Hr. unfold convert_row.
  assert (length (pad (length names) r) = length names) as Hpad.
  { unfold pad. rewrite length_app, length_replicate. lia. }
  rewrite <- (snd_zip names (pad (length names) r)) at 2 by lia.
  rewrite <- list_fmap_compose.
  apply mapM_Some, Forall2_fmap_r, Forall_Forall2_diag, Forall_forall.
  intros [name field] _. unfold convert. cbn [fst snd]. rewrite lookup_empty.
  case_bool_decide as Hin; [by apply elem_of_nil in Hin | done].
Qed.

(** X9.  The zone loader on a source with a header and no record longer
    than it: the run succeeds, the target table holds the index column and
    the header's columns and one row per record, in order, numbered from
    zero, short records padded and every field read by type inference; the
    row count printed is the number of records. *)
Theorem zones_loaded f t w :
  urlopen zones_url = Some f →
  header f ≠ [] →
  Forall (λ r, length r ≤ length (header f)) (records f) →
  index_label (header f) ∉ header f →
  reachable w = true →
  ∃ w',
    run t w = (Ok tt, w') ∧
    tables w' !! t =
      Some {| tcolumns := index_label (header f) :: header f;
              trows :=
                zip_with sql_row (seq 0 (length (records f)))
                  ((λ r, infer <$> pad (length (header f)) r) <$> records f) |} ∧
    stdout w' = stdout w ++ run_lines t (length (records f)).
Proof.
  intros Hf Hh Hlen Hlab Hr.
  set (vals := (λ r, infer <$> pad (length (header f)) r) <$> records f).
  assert (mapM (convert_row ∅ [] (header f)) (records f) = Some vals) as Hm.
  { apply mapM_Some, Forall2_fmap_r, Forall_Forall2_diag.
    eapply Forall_impl; [exact Hlen|]. intros r. apply convert_row_inferred. }
  assert (read_csv zones_url ∅ [] =
            Ok {| columns := header f;
                  index := seq 0 (length (records f));
                  values := vals |}) as Hdf.
  { unfold read_csv, TextFileReader_init. rewrite Hf.
    destruct (header f) as [|h hs] eqn:Ehd; [done|]. cbn [forallb].
    unfold read. cbn [pending chunksize default first_chunk names dtype_arg
                      parse_dates currow].
    rewrite take_ge by done.
    destruct (records f) as [|r0 rs] eqn:Erec; [done|].
    rewrite not_too_long by done. rewrite Hm.
    by rewrite (mapM_Some_length _ _ _ Hm). }
  eexists. rewrite (run_ok t w _ Hdf Hlab Hr). split_and!; [done | | ].
  - apply lookup_insert_eq.
  - cbn [stdout loaded]. unfold len. cbn [values].
    unfold vals. by rewrite length_fmap.
Qed.
End Robustness.

(** *** The strings of the entry points *)

(** X10.  The location of the data set determines the year and the month:
    two non-negative pairs of year and month with the same location are the
    same pair, so no two months are loaded from one file. *)
Theorem dataset_url_inj (year1 month1 year2 month2 : Z) :
  (0 ≤ year1)%Z → (0 ≤ month1)%Z → (0 ≤ year2)%Z → (0 ≤ month2)%Z →
  dataset_url year1 month1 = dataset_url year2 month2 →
  year1 = year2 ∧ month1 = month2.
Proof.
  intros Hy1 Hm1 Hy2 Hm2. unfold dataset_url. intros Heq.
  do 2 apply (inj (String.app _)) in Heq.
  rewrite !string_app_single in Heq.
  apply split_at_first in Heq as [Hy Heq];
    [| by apply format_0d_free; [|apply pretty_N_char_digit|]..].
  change ".csv.gz"%string with (String "." "csv.gz") in Heq.
  apply split_at_first in Heq as [Hm _];
    [| by apply format_0d_free; [|apply pretty_N_char_digit|]..].
  split; by eapply format_0d_inj.
Qed.

(** X11.  A zero-padded field is as wide as asked or as wide as the number
    written plainly, whichever is more; a number that fills the width is
    written plainly, so no digit is ever cut off. *)
Theorem format_0d_width (width : nat) (z : Z) :
  String.length (format_0d width z) = width `max` String.length (pretty z) ∧
  (width ≤ String.length (pretty z) → format_0d width z = pretty z).
Proof.
  unfold format_0d, zero_fill. destruct z as [|p|p].
  - change (0 <? 0)%Z with false. cbv iota.
    change (pretty (Z.to_N 0)) with (pretty 0%Z).
    rewrite string_app_length, zeros_length. split; [lia|].
    intros Hw. by replace (width - _) with 0 by lia.
  - change (Z.pos p <? 0)%Z with false. cbv iota.
    change (pretty (Z.to_N (Z.pos p))) with (pretty (Z.pos p)).
    rewrite string_app_length, zeros_length. split; [lia|].
    intros Hw. by replace (width - _) with 0 by lia.
  - change (Z.neg p <? 0)%Z with true. cbv iota.
    change (pretty (Z.abs_N (Z.neg p))) with (pretty p).
    change (pretty (Z.neg p)) with ("-" +:+ pretty p)%string.
    rewrite !string_app_single. simpl String.length.
    rewrite string_app_length, zeros_length. split; [lia|].
    intros Hw. by replace (width - 1 - _) with 0 by lia.
Qed.

(** X12.  The connection string takes the credentials as they are, with no
    quoting: a colon in the user name is read as the end of the user name,
    so that different credentials give the same connection string. *)
Theorem engine_url_unquoted (pg_user pass1 pass2 pg_host : string)
    (pg_port : Z) (pg_db : string) :
  engine_url (pg_user +:+ ":" +:+ pass1) pass2 pg_host pg_port pg_db =
  engine_url pg_user (pass1 +:+ ":" +:+ pass2) pg_host pg_port pg_db.
Proof. unfold engine_url. by rewrite <- !string_app_assoc. Qed.

(** *** The statements above on concrete sources *)

Section RobustnessExamples.
Local Open Scope string_scope.

(** January 2021 and its location. *)
Lemma dataset_url_inj_witness :
  dataset_url 2021 1 = url_prefix +:+ "/yellow_tripdata_2021-01.csv.gz" ∧
  (2021 = 2021 ∧ 1 = 1)%Z.
Proof.
  split; [vm_compute; reflexivity|].
  apply (dataset_url_inj 2021 1 2021 1); [lia .. | reflexivity].
Defined.

(** A three-digit month in a field of two: nothing is cut off. *)
Lemma format_0d_width_witness :
  (2 ≤ String.length (pretty 123%Z))%nat ∧ format_0d 2 123 = "123".
Proof.
  split; [vm_compute; lia|].
  apply (format_0d_width 2 123). vm_compute. lia.
Defined.

(** A negative chunk size. *)
Lemma chunksize_below_one_witness :
  read_csv_iterator (H:=example_env) "trips.csv" DTYPE PARSE_DATES (-5)
    = Raise ValueError_chunksize ∧
  ingest_data (H:=example_env) "trips.csv" "t" (-5) used_world
    = (Raise ValueError_chunksize, used_world) ∧
  classify ValueError_chunksize = Some InvalidConfiguration.
Proof.
  apply (chunksize_below_one (H:=example_env) "trips.csv" "t" (-5) used_world).
  lia.
Defined.

(** [trips.csv] is there, the database is not. *)
Lemma database_unreachable_witness :
  load (H:=example_env) (Trips "trips.csv" 2) "t" down_world
    = (Raise OperationalError, down_world) ∧
  classify OperationalError = Some ConnectionFailure.
Proof.
  apply (database_unreachable (H:=example_env) (Trips "trips.csv" 2) "t"
           down_world trips_frame).
  - vm_compute. reflexivity.
  - simpl. lia.
  - reflexivity.
Defined.

(** The zone table has none of the two date columns of the trips. *)
Lemma missing_date_column_witness :
  read_csv_iterator (H:=example_env) zones_url DTYPE PARSE_DATES 2
    = Raise ValueError_parse_dates ∧
  ingest_data (H:=example_env) zones_url "t" 2 fresh_world
    = (Raise ValueError_parse_dates, fresh_world) ∧
  classify ValueError_parse_dates = Some SchemaMismatch.
Proof.
  apply (missing_date_column (H:=example_env) zones_url
           zones_csv "t" 2 fresh_world "tpep_pickup_datetime").
  - vm_compute. reflexivity.
  - discriminate.
  - apply (bool_decide_unpack _). vm_compute. exact I.
  - apply (bool_decide_unpack _). vm_compute. exact I.
  - lia.
Defined.

(** Loading the trips into [trips] leaves the table [t] alone. *)
Lemma other_tables_untouched_witness :
  tables (load (H:=example_env) (Trips "trips.csv" 2) "trips" used_world).2
    !! "t" = tables used_world !! "t".
Proof.
  apply (other_tables_untouched (H:=example_env) (Trips "trips.csv" 2)
           "trips" "t" used_world (Ok tt)).
  - vm_compute. reflexivity.
  - discriminate.
Defined.

(** [bad.csv] in chunks of two: the run fails at the third record and the
    table holds the first two. *)
Lemma stored_rows_are_a_prefix_witness :
  (ingest_data (H:=example_env) "bad.csv" "t" 2 fresh_world).2 = fresh_world ∨
  ∃ (k : nat) (vals : list (list (@cell example_env))),
    (k ≤ length (records bad_csv))%nat ∧
    mapM (convert_row (H:=example_env) DTYPE PARSE_DATES (header bad_csv))
         (take k (records bad_csv)) = Some vals ∧
    tables (ingest_data (H:=example_env) "bad.csv" "t" 2 fresh_world).2 !! "t" =
      Some {| tcolumns := index_label (header bad_csv) :: header bad_csv;
              trows := zip_with sql_row (seq 0 k) vals |} ∧
    (Raise ValueError_dtype = Ok tt → k = length (records bad_csv)).
Proof.
  apply (stored_rows_are_a_prefix (H:=example_env) "bad.csv" bad_csv "t" 2
           fresh_world (Raise ValueError_dtype)).
  - reflexivity.
  - apply (bool_decide_unpack _). vm_compute. exact I.
  - vm_compute. reflexivity.
Defined.

(** The lines a load of [trips.csv] prints end with the completion line. *)
Lemma completion_line_witness :
  ∃ lines,
    stdout (ingest_data (H:=example_env) "trips.csv" "t" 2 fresh_world).2
      = (stdout fresh_world ++ lines)%list ∧
    (Ok tt = Ok tt ↔ "Done ingesting data into 't'" ∈ lines).
Proof.
  apply (completion_line (H:=example_env) "trips.csv" "t" 2 fresh_world (Ok tt)).
  vm_compute. reflexivity.
Defined.

(** The two zones of [zones_csv]. *)
Lemma zones_loaded_witness :
  ∃ w',
    run (H:=example_env) "zones" fresh_world = (Ok tt, w') ∧
    tables w' !! "zones" =
      Some {| tcolumns := "index" :: header zones_csv;
              trows :=
                [ SqlInt 0
                    :: (SqlCell <$> ["1"; "EWR"; "Newark Airport"; "EWR"]);
                  SqlInt 1
                    :: (SqlCell <$> ["2"; "Queens"; "Jamaica Bay";
                                     "Boro Zone"]) ] |} ∧
    stdout w' = ["table zones created"; "2 rows inserted into zones"].
Proof.
  destruct (zones_loaded (H:=example_env) zones_csv "zones" fresh_world)
    as (w' & Hrun & HT & Hout).
  - vm_compute. reflexivity.
  - discriminate.
  - apply (bool_decide_unpack _). vm_compute. exact I.
  - apply (bool_decide_unpack _). vm_compute. exact I.
  - reflexivity.
  - exists w'. split; [exact Hrun|]. split; [exact HT | exact Hout].
Defined.
End RobustnessExamples.
